(** * PEIP: L-curve criteria and the generalized singular value decomposition

    A shallow embedding of [peiplib/lcurve.py] and [peiplib/linalg.py].

    - NumPy's [float64] is Rocq's primitive binary64 [float]; elementwise
      arithmetic is the IEEE operation of the same name.
    - A Python call either returns or raises: [Py.result].
    - A one-dimensional array is a [list float]; a two-dimensional array is
      a shape together with its entries ([Np.matrix]).
    - Reductions that NumPy hands to BLAS ([dot], [norm]) are summed from
      the left; no statement below depends on the order of summation.
    - The C library functions [log], [log10] and [10**x], and the LAPACK
      drivers behind [scipy.linalg.svd], [scipy.linalg.qr],
      [numpy.linalg.inv] and [numpy.linalg.matrix_rank], are variables of
      the sections that use them. *)

From Stdlib Require Import List ZArith Lia Bool Floats.
Import ListNotations.

(** * Python: exceptions, sequences, builtins *)

Module Py.

(** The exception classes the modelled code can raise.  [ValueError],
    [IndexError], [ZeroDivisionError], [OverflowError] and
    [RecursionError] are Python's;
    [LinAlgError] is NumPy's; [MatrixColumnMismatch] is declared in
    [linalg.py]. *)
Inductive exn : Set :=
| ValueError
| IndexError
| ZeroDivisionError
| OverflowError
| RecursionError
| LinAlgError
| MatrixColumnMismatch.

Inductive result (A : Type) : Type :=
| Ok (a : A)
| Raise (e : exn).

Arguments Ok {A} a.
Arguments Raise {A} e.

Definition bind {A B : Type} (r : result A) (k : A -> result B) : result B :=
  match r with
  | Ok a => k a
  | Raise e => Raise e
  end.

Definition returns {A : Type} (r : result A) : Prop := exists a, r = Ok a.

Definition raises {A : Type} (r : result A) : Prop := exists e, r = Raise e.

(** [seq[i]] for a Python integer [i]: negative indices count from the end,
    anything outside [-len, len) raises [IndexError]. *)
Definition getitem {A : Type} (l : list A) (i : Z) : result A :=
  let n := Z.of_nat (length l) in
  let j := if (i <? 0)%Z then (i + n)%Z else i in
  if ((0 <=? j) && (j <? n))%Z
  then match nth_error l (Z.to_nat j) with
       | Some a => Ok a
       | None => Raise IndexError
       end
  else Raise IndexError.

(** A slice bound as [slice.indices] normalises it (step 1). *)
Definition clamp (n i : Z) : Z :=
  if (i <? 0)%Z then Z.max 0 (i + n) else Z.min i n.

(** [seq[start:stop]], either bound optional. *)
Definition slice {A : Type} (start stop : option Z) (l : list A) : list A :=
  let n := Z.of_nat (length l) in
  let lo := match start with None => 0%Z | Some i => clamp n i end in
  let hi := match stop with None => n | Some i => clamp n i end in
  firstn (Z.to_nat (hi - lo)) (skipn (Z.to_nat lo) l).

(** [seq[i] = v] for [0 <= i < len]. *)
Fixpoint setitem {A : Type} (l : list A) (i : nat) (v : A) : list A :=
  match l, i with
  | [], _ => []
  | _ :: t, O => v :: t
  | h :: t, S j => h :: setitem t j v
  end.

(** Truth value of an optional float argument: [None] and both zeros are
    false, everything else (NaN included) is true. *)
Definition truthy (x : option float) : bool :=
  match x with
  | None => false
  | Some v => negb (v =? 0)%float
  end.

(** [x or dflt], where [dflt] is evaluated only when [x] is false. *)
Definition or_else (x : option float) (dflt : result float) : result float :=
  match x with
  | Some v => if truthy x then Ok v else dflt
  | None => dflt
  end.

(** [max(a, b)]: keeps [a] unless [b > a]. *)
Definition max2 (a b : float) : float := if (a <? b)%float then b else a.

(** [sorted((a, b), reverse=True)]: the list is reversed, sorted stably in
    ascending order and reversed again, so the pair is swapped exactly
    when [a < b]. *)
Definition sorted_reverse (a b : float) : float * float :=
  if (a <? b)%float then (b, a) else (a, b).

(** [for i in range(n): st = body(i, st)], stopping at the first raise. *)
Fixpoint for_range_from {St : Type} (i n : nat)
  (body : nat -> St -> result St) (st : St) : result St :=
  match n with
  | O => Ok st
  | S n' => bind (body i st) (for_range_from (S i) n' body)
  end.

Definition for_range {St : Type} (lo hi : nat)
  (body : nat -> St -> result St) (st : St) : result St :=
  for_range_from lo (hi - lo) body st.

End Py.

Import Py.

Declare Scope py_scope.
Delimit Scope py_scope with py.
Notation "x <- c ;; k" := (bind c (fun x => k))
  (at level 61, c at next level, right associativity) : py_scope.
Notation "' pat <- c ;; k" := (bind c (fun x => match x with pat => k end))
  (at level 61, pat pattern, c at next level, right associativity) : py_scope.
Open Scope py_scope.

(** * NumPy: arrays of float64 *)

Module Np.

Open Scope float_scope.

(** Machine epsilon of float64, [np.finfo(np.float64).eps] = 2^-52. *)
Definition eps : float := 0x1p-52.

(** A Python integer as a float64. *)
Definition of_nat (i : nat) : float := of_uint63 (Uint63.of_Z (Z.of_nat i)).

(** [x**2] on a float64 scalar or elementwise on an array. *)
Definition sq (x : float) : float := x * x.

Definition isnan (x : float) : bool := is_nan x.

Definition isinf (x : float) : bool := is_infinity x.

(** ** One-dimensional arrays *)

Definition zeros (n : nat) : list float := repeat 0 n.

(** [a op b] on two one-dimensional arrays: equal lengths, or one of them
    of length 1 (broadcast); otherwise [ValueError]. *)
Definition broadcast (op : float -> float -> float) (x y : list float)
  : result (list float) :=
  if Nat.eqb (length x) (length y)
  then Ok (map (fun ab => op (fst ab) (snd ab)) (combine x y))
  else match x, y with
       | [a], _ => Ok (map (op a) y)
       | _, [b] => Ok (map (fun a => op a b) x)
       | _, _ => Raise ValueError
       end.

Definition sum (v : list float) : float := fold_left add v 0.

(** Inner product of two arrays of one length. *)
Definition inner (x y : list float) : float :=
  sum (map (fun ab => fst ab * snd ab) (combine x y)).

(** [numpy.linalg.norm] of a one-dimensional real array:
    [sqrt(x.dot(x))]. *)
Definition norm (x : list float) : float := sqrt (inner x x).

(** [np.asscalar(a)], that is [a.item()]: the array must hold exactly one
    element. *)
Definition asscalar (a : list float) : result float :=
  match a with
  | [x] => Ok x
  | _ => Raise ValueError
  end.

(** The scan of [np.argmax] / [np.argmin]: [better x best] decides whether
    [x] replaces the running extremum; a NaN extremum ends the scan. *)
Fixpoint argscan (better : float -> float -> bool) (best : float)
  (ibest i : nat) (l : list float) : nat :=
  match l with
  | [] => ibest
  | x :: t =>
      if isnan best then ibest
      else if better x best then argscan better x i (S i) t
      else argscan better best ibest (S i) t
  end.

Definition argmax (l : list float) : result nat :=
  match l with
  | [] => Raise ValueError
  | x :: t => Ok (argscan (fun v m => negb (v <=? m)) x 0 1 t)
  end.

Definition argmin (l : list float) : result nat :=
  match l with
  | [] => Raise ValueError
  | x :: t => Ok (argscan (fun v m => negb (m <=? v)) x 0 1 t)
  end.

(** [np.nanargmax]: NaNs are replaced by [-inf]; a slice that is all NaN
    (the empty slice included) raises [ValueError]. *)
Definition nanargmax (v : list float) : result nat :=
  let a := map (fun x => if isnan x then neg_infinity else x) v in
  if forallb isnan v then Raise ValueError else argmax a.

(** ** Two-dimensional arrays *)

Record matrix : Type := Matrix {
  nrows : nat;
  ncols : nat;
  entry : nat -> nat -> float
}.

Definition row (M : matrix) (i : nat) : list float :=
  map (entry M i) (seq 0 (ncols M)).

Definition col (M : matrix) (j : nat) : list float :=
  map (fun i => entry M i j) (seq 0 (nrows M)).

(** [M.T] *)
Definition transpose (M : matrix) : matrix :=
  Matrix (ncols M) (nrows M) (fun i j => entry M j i).

(** [np.dot(M, v)] for a matrix and a one-dimensional array. *)
Definition dot_mv (M : matrix) (v : list float) : result (list float) :=
  if Nat.eqb (ncols M) (length v)
  then Ok (map (fun i => inner (row M i) v) (seq 0 (nrows M)))
  else Raise ValueError.

(** [np.dot(A, B)] (also [A @ B]) for two matrices. *)
Definition dot (A B : matrix) : result matrix :=
  if Nat.eqb (ncols A) (nrows B)
  then Ok (Matrix (nrows A) (ncols B)
             (fun i j => inner (row A i) (col B j)))
  else Raise ValueError.

(** [np.diag(M, k)] of a matrix: its [k]-th diagonal, ([k >= 0] above the
    main one). *)
Definition diag_of (M : matrix) (k : Z) : list float :=
  let r := if (0 <=? k)%Z then 0%nat else Z.to_nat (- k) in
  let c := if (0 <=? k)%Z then Z.to_nat k else 0%nat in
  map (fun i => entry M (r + i) (c + i))
      (seq 0 (Nat.min (nrows M - r) (ncols M - c))).

(** [np.diag(v)] of a one-dimensional array: the square matrix with [v] on
    its diagonal. *)
Definition diag_matrix (v : list float) : matrix :=
  Matrix (length v) (length v)
    (fun i j => if Nat.eqb i j then nth i v 0 else 0).

(** [M[:, lo:hi]] with Python's clamping of the bounds. *)
Definition cols_slice (M : matrix) (start stop : option Z) : matrix :=
  let n := Z.of_nat (ncols M) in
  let lo := match start with None => 0%Z | Some i => clamp n i end in
  let hi := match stop with None => n | Some i => clamp n i end in
  Matrix (nrows M) (Z.to_nat (hi - lo))
    (fun i j => entry M i (Z.to_nat lo + j)).

(** [M.size] *)
Definition size (M : matrix) : nat := nrows M * ncols M.

(** [np.array([])], of size 0. *)
Definition empty : matrix := Matrix 0 0 (fun _ _ => 0).

Definition identity (n : nat) : matrix :=
  Matrix n n (fun i j => if Nat.eqb i j then 1 else 0).

(** [np.zeros((r, c))]: a negative dimension raises [ValueError]. *)
Definition zeros2 (r c : Z) : result matrix :=
  if ((r <? 0) || (c <? 0))%Z then Raise ValueError
  else Ok (Matrix (Z.to_nat r) (Z.to_nat c) (fun _ _ => 0)).

(** [v.reshape(-1, 1)] *)
Definition column (v : list float) : matrix :=
  Matrix (length v) 1 (fun i _ => nth i v 0).

(** [np.vstack([A, B])] *)
Definition vstack (A B : matrix) : result matrix :=
  if Nat.eqb (ncols A) (ncols B)
  then Ok (Matrix (nrows A + nrows B) (ncols A)
             (fun i j => if (i <? nrows A)%nat then entry A i j
                         else entry B (i - nrows A) j))
  else Raise ValueError.

(** [np.arange(lo, hi)], empty when [hi <= lo]. *)
Definition arange (lo hi : nat) : list nat := seq lo (hi - lo).

(** [np.where(cond)[0]] / [np.nonzero(cond)[0]] on a one-dimensional
    array. *)
Definition where_ (cond : float -> bool) (v : list float) : list nat :=
  filter (fun i => cond (nth i v 0)) (seq 0 (length v)).

(** [np.count_nonzero(cond)] *)
Definition count_nonzero (cond : float -> bool) (v : list float) : nat :=
  length (filter cond v).

(** Broadcasting: the common length of two dimensions. *)
Definition bdim (a b : nat) : option nat :=
  if Nat.eqb a b then Some a
  else if Nat.eqb a 1 then Some b
  else if Nat.eqb b 1 then Some a
  else None.

(** The entry of [R] that lands on [(i, j)] when [R] is broadcast. *)
Definition bentry (R : matrix) (i j : nat) : float :=
  entry R (if Nat.eqb (nrows R) 1 then 0%nat else i)
          (if Nat.eqb (ncols R) 1 then 0%nat else j).

(** [A op B] on two matrices. *)
Definition broadcast2 (op : float -> float -> float) (A B : matrix)
  : result matrix :=
  match bdim (nrows A) (nrows B), bdim (ncols A) (ncols B) with
  | Some r, Some c =>
      Ok (Matrix r c (fun i j => op (bentry A i j) (bentry B i j)))
  | _, _ => Raise ValueError
  end.

(** [R] can be assigned to a target of shape [(r, c)]. *)
Definition fits (R : matrix) (r c : nat) : bool :=
  (Nat.eqb (nrows R) r || Nat.eqb (nrows R) 1)
  && (Nat.eqb (ncols R) c || Nat.eqb (ncols R) 1).

Definition in_bounds (n : nat) (idx : list nat) : bool :=
  forallb (fun i => (i <? n)%nat) idx.

(** The last position at which the index array [idx] names [c]. *)
Fixpoint last_pos (idx : list nat) (c : nat) (t : nat) : option nat :=
  match idx with
  | [] => None
  | x :: rest =>
      match last_pos rest c (S t) with
      | Some u => Some u
      | None => if Nat.eqb x c then Some t else None
      end
  end.

(** [M[:, j]] and [M[i, :]] for an index array. *)
Definition take_cols (M : matrix) (j : list nat) : result matrix :=
  if in_bounds (ncols M) j
  then Ok (Matrix (nrows M) (length j) (fun r c => entry M r (nth c j 0%nat)))
  else Raise IndexError.

Definition take_rows (M : matrix) (i : list nat) : result matrix :=
  if in_bounds (nrows M) i
  then Ok (Matrix (length i) (ncols M) (fun r c => entry M (nth r i 0%nat) c))
  else Raise IndexError.

(** [M[:, j] = R] and [M[i, :] = R] for an index array. *)
Definition set_cols (M : matrix) (j : list nat) (R : matrix) : result matrix :=
  if in_bounds (ncols M) j
  then if fits R (nrows M) (length j)
       then Ok (Matrix (nrows M) (ncols M)
                  (fun r c => match last_pos j c 0 with
                              | Some t => bentry R r t
                              | None => entry M r c
                              end))
       else Raise ValueError
  else Raise IndexError.

Definition set_rows (M : matrix) (i : list nat) (R : matrix) : result matrix :=
  if in_bounds (nrows M) i
  then if fits R (length i) (ncols M)
       then Ok (Matrix (nrows M) (ncols M)
                  (fun r c => match last_pos i r 0 with
                              | Some t => bentry R t c
                              | None => entry M r c
                              end))
       else Raise ValueError
  else Raise IndexError.

(** [M[r0:r1, c0:c1]] for non-negative bounds, clamped to the shape. *)
Definition block (M : matrix) (r0 r1 c0 c1 : nat) : matrix :=
  let rlo := Nat.min r0 (nrows M) in
  let rhi := Nat.min r1 (nrows M) in
  let clo := Nat.min c0 (ncols M) in
  let chi := Nat.min c1 (ncols M) in
  Matrix (rhi - rlo) (chi - clo) (fun i j => entry M (rlo + i) (clo + j)).

Definition inside (lo hi i : nat) : bool := ((lo <=? i) && (i <? hi))%nat.

(** [M[r0:r1, c0:c1] = R] *)
Definition set_block (M : matrix) (r0 r1 c0 c1 : nat) (R : matrix)
  : result matrix :=
  let rlo := Nat.min r0 (nrows M) in
  let rhi := Nat.min r1 (nrows M) in
  let clo := Nat.min c0 (ncols M) in
  let chi := Nat.min c1 (ncols M) in
  if fits R (rhi - rlo) (chi - clo)
  then Ok (Matrix (nrows M) (ncols M)
             (fun i j => if inside rlo rhi i && inside clo chi j
                         then bentry R (i - rlo) (j - clo)
                         else entry M i j))
  else Raise ValueError.

(** [M[r0:r1, c0:c1] = v] for a scalar [v]. *)
Definition fill_block (M : matrix) (r0 r1 c0 c1 : nat) (v : float) : matrix :=
  let rlo := Nat.min r0 (nrows M) in
  let rhi := Nat.min r1 (nrows M) in
  let clo := Nat.min c0 (ncols M) in
  let chi := Nat.min c1 (ncols M) in
  Matrix (nrows M) (ncols M)
    (fun i j => if inside rlo rhi i && inside clo chi j then v
                else entry M i j).

(** [M[i, j] = v] for two non-negative integers. *)
Definition set_entry (M : matrix) (i j : nat) (v : float) : result matrix :=
  if ((i <? nrows M) && (j <? ncols M))%nat
  then Ok (Matrix (nrows M) (ncols M)
             (fun r c => if Nat.eqb r i && Nat.eqb c j then v
                         else entry M r c))
  else Raise IndexError.

(** [M[i, :]] for a non-negative integer [i]: a one-dimensional array. *)
Definition row_at (M : matrix) (i : nat) : result (list float) :=
  if (i <? nrows M)%nat then Ok (row M i) else Raise IndexError.

(** How many indices the slice [q-1::-1] selects from an axis of length
    [len]: a start of [-1] (when [q = 0]) is the last index. *)
Definition rev_count (len q : nat) : nat :=
  match q with
  | O => len
  | S _ => Nat.min q len
  end.

(** [M[q-1::-1, q-1::-1]] *)
Definition rev_block (M : matrix) (q : nat) : matrix :=
  let r := rev_count (nrows M) q in
  let c := rev_count (ncols M) q in
  Matrix r c (fun i j => entry M (r - 1 - i) (c - 1 - j)).

(** [scipy.linalg.diagsvd(s, M, N)] *)
Definition diagsvd (s : list float) (M N : nat) : result matrix :=
  let D := Matrix M N (fun i j => if Nat.eqb i j then nth i s 0 else 0) in
  if Nat.eqb (length s) M
  then if (M <=? N)%nat then Ok D else Raise ValueError
  else if Nat.eqb (length s) N
       then if (N <=? M)%nat then Ok D else Raise ValueError
       else Raise ValueError.

(** ** [np.tile] and [scipy.sparse.csr_matrix] *)





(** A LAPACK driver either returns or raises [LinAlgError]. *)
Definition lapack {A : Type} (o : option A) : result A :=
  match o with
  | Some a => Ok a
  | None => Raise LinAlgError
  end.

End Np.

Import Np.

(** * [peiplib/linalg.py] *)

Module Linalg.

Open Scope float_scope.

(** ** [roughmat] (lines 14-73) *)





(** [_diagk] (lines 80-92): the [k]-th diagonal of a two-dimensional
    array. *)
Definition _diagk (X : matrix) (k : Z) : list float := diag_of X k.

(** [_diagf] (lines 95-99): [np.triu(np.tril(X))]. *)
Definition _diagf (X : matrix) : matrix :=
  Matrix (nrows X) (ncols X)
    (fun i j => if Nat.eqb i j then entry X i j else 0).

(** [_diagp] (lines 102-114).  The arrays are real: [np.imag(D)] is zero
    and [np.conj(D)] is [D]. *)
Definition _diagp (Y X : matrix) (k : Z) : result (matrix * matrix) :=
  let D := _diagk X k in
  let j := where_ (fun d => d <? 0) D in
  let D := diag_matrix (map (fun t => nth t D 0 / abs (nth t D 0)) j) in
  Yj <- take_cols Y j ;;
  YD <- dot Yj (transpose D) ;;
  Y <- set_cols Y j YD ;;
  Xj <- take_rows X j ;;
  DX <- dot D Xj ;;
  X <- set_rows X j DX ;;
  Ok (Y, X).

Section Linalg.

(** [scipy.linalg.svd(a)], [scipy.linalg.qr(a)] and
    [scipy.linalg.qr(a, mode='economic')]; [None] when the driver
    fails. *)
Variable svd : matrix -> option (matrix * list float * matrix).
Variable qr : matrix -> option (matrix * matrix).
Variable qr_economic : matrix -> option (matrix * matrix).

(** What [_csd] returns: [(U, V, Z, C, S)].  The source's [S] is written
    [S_] throughout, [S] being the successor of [nat]. *)
Definition csd_result : Type := matrix * matrix * matrix * matrix * matrix.

(** Lines 167-171: the split index when [q != 1] and [m >= p]. *)
Definition csd_split (C : matrix) : result nat :=
  let dum := where_ (fun x => x <=? 1 / sqrt 2) (diag_of C 0) in
  if negb (existsb (fun i => negb (Nat.eqb i 0)) dum) then Ok 0%nat
  else
    match dum with
    | [] => Raise ValueError
    | i :: rest => Ok (fold_left Nat.max rest i + 1)%nat
    end.

(** Lines 185-203: the block of [S] that is not yet diagonal. *)
Definition csd_middle (m n p q k : nat) (U V Z C S_ : matrix)
  : result csd_result :=
  let r := Nat.min n p in
  let i := arange k n in
  let j := arange k r in
  '(UT, sT, VhT) <- lapack (svd (block S_ k n k r)) ;;
  ST <- diagsvd sT (n - k) (r - k) ;;
  let VT := transpose VhT in
  let S_ := if (0 <? k)%nat then fill_block S_ 0 k k r 0 else S_ in
  S_ <- set_block S_ k n k r ST ;;
  Cj <- take_cols C j ;;
  CV <- dot Cj VT ;;
  C <- set_cols C j CV ;;
  Vi <- take_cols V i ;;
  VU <- dot Vi UT ;;
  V <- set_cols V i VU ;;
  Zj <- take_cols Z j ;;
  ZV <- dot Zj VT ;;
  Z <- set_cols Z j ZV ;;
  let i := arange k q in
  '(Q, R) <- lapack (qr (block C k q k r)) ;;
  C <- set_block C k q k r (_diagf R) ;;
  Ui <- take_cols U i ;;
  UQ <- dot Ui Q ;;
  U <- set_cols U i UQ ;;
  Ok (U, V, Z, C, S_).

(** Lines 205-237: the final block of [S] when [m < p]; returns
    [(V, Z, C, S)]. *)
Definition csd_wide (m n p : nat) (V Z C S_ : matrix)
  : result (matrix * matrix * matrix * matrix) :=
  let dum1 := count_nonzero
                (fun x => of_nat (10 * m) * eps <? abs x) (_diagk C 0) in
  let dum2 := count_nonzero
                (fun x => of_nat (10 * n) * eps <? abs x) (_diagk S_ 0) in
  let q := Nat.min dum1 dum2 in
  let i := arange q n in
  '(Q, R) <- lapack (qr (block S_ q n m p)) ;;
  let S_ := fill_block S_ 0 (nrows S_) q p 0 in
  S_ <- set_block S_ q n m p (_diagf R) ;;
  Vi <- take_cols V i ;;
  VQ <- dot Vi Q ;;
  V <- set_cols V i VQ ;;
  let j := arange m p ++ arange 0 m in
  if (1 <? n)%nat
  then
    let i := arange q (q + p - m) ++ arange 0 q ++ arange (q + p - m) n in
    C <- take_cols C j ;;
    Si <- take_rows S_ i ;;
    S_ <- take_cols Si j ;;
    Z <- take_cols Z j ;;
    V <- take_cols V i ;;
    Ok (V, Z, C, S_)
  else
    (* i = 1: [S[i, :]] is a one-dimensional array, which [[:, j]]
       cannot index *)
    C <- take_cols C j ;;
    _ <- row_at S_ 1 ;;
    Raise IndexError.

(** Lines 149-249: the decomposition when [n <= m]. *)
Definition csd_tall (Q1 Q2 : matrix) : result csd_result :=
  let m := nrows Q1 in
  let p := ncols Q1 in
  let n := nrows Q2 in
  '(U, c, Zh) <- lapack (svd Q1) ;;
  C <- diagsvd c m p ;;
  let Z := transpose Zh in
  let q := Nat.min m p in
  let i := arange 0 q in
  let j := rev (arange 0 q) in
  C <- set_block C 0 q 0 q (rev_block C q) ;;
  Uj <- take_cols U j ;;
  U <- set_cols U i Uj ;;
  Zj <- take_cols Z j ;;
  Z <- set_cols Z i Zj ;;
  S_ <- dot Q2 Z ;;
  k <- (if Nat.eqb q 1 then Ok 0%nat
        else if (m <? p)%nat then Ok n
        else csd_split C) ;;
  V <- (if Nat.eqb k 0
        then Ok (identity (nrows (block S_ 0 (nrows S_) 0 k)))
        else '(V, _) <- lapack (qr (block S_ 0 (nrows S_) 0 k)) ;; Ok V) ;;
  S_ <- dot (transpose V) S_ ;;
  let r := Nat.min k m in
  S_ <- set_block S_ 0 (nrows S_) 0 r (_diagf (block S_ 0 (nrows S_) 0 r)) ;;
  S_ <- (if Nat.eqb m 1 && (1 <? p)%nat then set_entry S_ 0 0 0 else Ok S_) ;;
  '(U, V, Z, C, S_) <- (if (k <? Nat.min n p)%nat
                       then csd_middle m n p q k U V Z C S_
                       else Ok (U, V, Z, C, S_)) ;;
  '(V, Z, C, S_) <- (if (m <? p)%nat
                    then csd_wide m n p V Z C S_
                    else Ok (V, Z, C, S_)) ;;
  let S_ := if (n <? p)%nat then fill_block S_ 0 (nrows S_) n p 0 else S_ in
  '(U, C) <- _diagp U C (Z.max 0 (Z.of_nat p - Z.of_nat m)) ;;
  '(V, S_) <- _diagp V S_ 0 ;;
  Ok (U, V, Z, C, S_).

(** The body of [_csd] (lines 117-249), the recursive call being
    [self]. *)
Definition csd_body (self : matrix -> matrix -> result csd_result)
  (Q1 Q2 : matrix) : result csd_result :=
  let m := nrows Q1 in
  let p := ncols Q1 in
  let n := nrows Q2 in
  let pb := ncols Q2 in
  if negb (Nat.eqb pb p) then Raise MatrixColumnMismatch
  else if (m <? n)%nat
  then
    '(V, U, Z, S_, C) <- self Q2 Q1 ;;
    let j := rev (arange 0 p) in
    C <- take_cols C j ;;
    S_ <- take_cols S_ j ;;
    Z <- take_cols Z j ;;
    let m := Nat.min m p in
    let i := rev (arange 0 m) in
    Ci <- take_rows C i ;;
    C <- set_block C 0 m 0 (ncols C) Ci ;;
    Ui <- take_cols U i ;;
    U <- set_block U 0 (nrows U) 0 m Ui ;;
    let n := Nat.min n p in
    let i := rev (arange 0 n) in
    Si <- take_rows S_ i ;;
    S_ <- set_block S_ 0 n 0 (ncols S_) Si ;;
    Vi <- take_cols V i ;;
    V <- set_block V 0 (nrows V) 0 n Vi ;;
    Ok (U, V, Z, C, S_)
  else csd_tall Q1 Q2.

(** [_csd]: the call swaps its arguments when [m < n], so the second call
    has [n <= m] and calls no further; a third call stands for Python's
    recursion limit. *)
Definition _csd : matrix -> matrix -> result csd_result :=
  csd_body (csd_body (fun _ _ => Raise RecursionError)).

(** What [gsvd] returns: the full composition [(U, V, X, C, S)], or the
    column of generalized singular values. *)
Inductive gsvd_result : Type :=
| Full (U V X C S_ : matrix)
| Values (sigma : matrix).

(** Lines 275-283: the economy-sized reduction of one operand; returns
    the orthogonal factor, the reduced operand and its row count. *)
Definition economy (full_matrices : bool) (A : matrix) (m p : nat)
  : result (matrix * matrix * nat) :=
  if negb full_matrices && (p <? m)%nat
  then
    '(QA, A) <- lapack (qr_economic A) ;;
    '(QA, A) <- _diagp QA A 0 ;;
    Ok (QA, A, p)
  else Ok (empty, A, m).

(** [gsvd] (lines 252-311) *)
Definition gsvd (A B : matrix) (full_matrices compute_all : bool)
  : result gsvd_result :=
  let m := nrows A in
  let p := ncols A in
  let n := nrows B in
  let pb := ncols B in
  if negb (Nat.eqb pb p) then Raise MatrixColumnMismatch
  else
    '(QA, A, m) <- economy full_matrices A m p ;;
    '(QB, B, n) <- economy full_matrices B n p ;;
    AB <- vstack A B ;;
    '(Q, R) <- lapack (qr_economic AB) ;;
    '(U, V, Z, C, S_) <- _csd (block Q 0 m 0 (ncols Q))
                             (block Q m (m + n) 0 (ncols Q)) ;;
    if compute_all
    then
      X <- dot (transpose R) Z ;;
      U <- (if negb (Nat.eqb (size QA) 0) then dot QA U else Ok U) ;;
      V <- (if negb (Nat.eqb (size QB) 0) then dot QB V else Ok V) ;;
      Ok (Full U V X C S_)
    else
      let q := Z.min (Z.of_nat m + Z.of_nat n) (Z.of_nat p) in
      dum1 <- zeros2 (q - Z.of_nat m) 1 ;;
      let dum2 := column (_diagk C (Z.max 0 (q - Z.of_nat m))) in
      dumA <- vstack dum1 dum2 ;;
      let dum3 := column (_diagk S_ 0) in
      dum4 <- zeros2 (q - Z.of_nat n) 1 ;;
      dumB <- vstack dum3 dum4 ;;
      sigma <- broadcast2 div dumA dumB ;;
      Ok (Values sigma).

End Linalg.

End Linalg.

(** * [peiplib/lcurve.py] *)

Module Lcurve.

Open Scope float_scope.

Section Lcurve.

(** The C library: [np.log], [np.log10] and [10.0**x]. *)
Variables ln log10 pow10 : float -> float.

(** LAPACK: [numpy.linalg.matrix_rank] and [numpy.linalg.inv]; [None]
    when the driver fails. *)
Variable matrix_rank : matrix -> option nat.
Variable inv : matrix -> option matrix.

(** Modelled from the spec: [loglinspace] of [peiplib.util], which is not
    among the sources.  The spec says of the sweeps that use it that it
    "generates npoints values logarithmically spaced from alpha_max down to
    alpha_min (first sample equals alpha_max)": [num] samples, the first
    one [start] itself, sample [i] at the fraction [i/(num-1)] of the way
    from [log10 start] to [log10 stop]. *)
Definition loglinspace (start stop : float) (num : nat) : list float :=
  map (fun i =>
         match i with
         | O => start
         | S _ => pow10 (log10 start
                         + of_nat i * ((log10 stop - log10 start)
                                       / of_nat (num - 1)))
         end)
      (seq 0 num).

(** ** [tikh_svd] (lines 14-89) *)

(** Lines 54-57: the two ends of the sweep. *)
Definition tikh_svd_bounds (s : list float) (alpha_min alpha_max : option float)
  : result (float * float) :=
  let smin_ratio := 16 * eps in
  start <- or_else alpha_max (getitem s 0) ;;
  stop <- or_else alpha_min
            (s_last <- getitem s (-1) ;;
             s_0 <- getitem s 0 ;;
             Ok (max2 s_last (s_0 * smin_ratio))) ;;
  Ok (sorted_reverse start stop).

(** Lines 80-83: one turn of the loop over the regularization
    parameters. *)
Definition tikh_svd_step (s2 d_proj d_proj_scale alphas : list float)
  (i : nat) (st : list float * list float)
  : result (list float * list float) :=
  let '(etas, rhos) := st in
  alpha <- getitem alphas (Z.of_nat i) ;;
  f <- broadcast div s2 (map (fun x => x + sq alpha) s2) ;;
  fd <- broadcast mul f d_proj_scale ;;
  let etas := setitem etas i (norm fd) in
  gd <- broadcast mul (map (fun x => 1 - x) f) d_proj ;;
  let rhos := setitem rhos i (norm gd) in
  Ok (etas, rhos).

(** [d] is the data vector already flattened (lines 63-64 reshape a
    two-dimensional [d] to one dimension). *)
Definition tikh_svd (U : matrix) (s d : list float) (npoints : nat)
  (alpha_min alpha_max : option float)
  : result (list float * list float * list float) :=
  '(start, stop) <- tikh_svd_bounds s alpha_min alpha_max ;;
  let alphas := loglinspace start stop npoints in
  let m := nrows U in
  let n := ncols U in
  let p := length s in
  d_proj <- dot_mv (transpose U) d ;;
  let dr := sq (norm d) - sq (norm d_proj) in
  let d_proj := slice None (Some (Z.of_nat p)) d_proj in
  d_proj_scale <- broadcast div d_proj s ;;
  let etas := zeros npoints in
  let rhos := zeros npoints in
  let s2 := map sq s in
  '(etas, rhos) <- for_range 0 npoints
                     (tikh_svd_step s2 d_proj d_proj_scale alphas)
                     (etas, rhos) ;;
  let rhos := if (n <? m)%nat && (0 <? dr)
              then map (fun r => sqrt (sq r + dr)) rhos
              else rhos in
  Ok (rhos, etas, alphas).

(** ** [tikh_gsvd] (lines 92-203) *)

(** Lines 156-165: the ends derived from the generalized singular values.
    [m], [n] is the shape of [G] and [p] the rank of [L]. *)
Definition tikh_gsvd_default_bounds (gammas : list float) (m n p : nat)
  (alpha_min alpha_max : option float) : result (float * float) :=
  let gmin_ratio := 16 * eps in
  if (m <=? n)%nat
  then
    let a := (Z.of_nat n - Z.of_nat m)%Z in
    let b := (Z.of_nat p - 1)%Z in
    let i1 := Z.min a b in
    let i2 := Z.max a b in
    start <- or_else alpha_max (getitem gammas i2) ;;
    stop <- or_else alpha_min
              (g1 <- getitem gammas i1 ;;
               g2 <- getitem gammas i2 ;;
               Ok (max2 g1 (g2 * gmin_ratio))) ;;
    Ok (start, stop)
  else
    let b := (Z.of_nat p - 1)%Z in
    start <- or_else alpha_max (getitem gammas b) ;;
    stop <- or_else alpha_min
              (g0 <- getitem gammas 0 ;;
               gp <- getitem gammas b ;;
               Ok (max2 g0 (gp * gmin_ratio))) ;;
    Ok (start, stop).

(** Lines 152-168: the two ends of the sweep. *)
Definition tikh_gsvd_bounds (gammas : list float) (m n p : nat)
  (alpha_min alpha_max : option float) : result (float * float) :=
  '(start, stop) <-
    match alpha_min, alpha_max with
    | Some lo, Some hi =>
        if truthy alpha_min && truthy alpha_max
        then Ok (hi, lo)
        else tikh_gsvd_default_bounds gammas m n p alpha_min alpha_max
    | _, _ => tikh_gsvd_default_bounds gammas m n p alpha_min alpha_max
    end ;;
  Ok (sorted_reverse start stop).

(** Lines 187-194: the filter coefficient of column [igam]. *)
Definition filter_coefficient (lams mus gammas alphas : list float)
  (ireg igam : nat) : result float :=
  gam <- getitem gammas (Z.of_nat igam) ;;
  if isinf gam || isnan gam then Ok 1
  else
    lam <- getitem lams (Z.of_nat igam) ;;
    both_zero <- (if lam =? 0
                  then mu <- getitem mus (Z.of_nat igam) ;; Ok (mu =? 0)
                  else Ok false) ;;
    if (both_zero : bool) then Ok 0
    else
      alpha <- getitem alphas (Z.of_nat ireg) ;;
      Ok (sq gam / (sq gam + sq alpha)).

(** Lines 185-194: the filter of one regularization parameter. *)
Definition series_filter (lams mus gammas alphas : list float)
  (k n ireg : nat) : result (list float) :=
  for_range k n
    (fun igam f =>
       c <- filter_coefficient lams mus gammas alphas ireg igam ;;
       Ok (setitem f igam c))
    (zeros n).

(** Lines 182-201: one turn of the loop over the regularization
    parameters. *)
Definition tikh_gsvd_step (U Y G L : matrix)
  (lams mus gammas d alphas : list float) (k n : nat)
  (ireg : nat) (st : list float * list float)
  : result (list float * list float) :=
  let '(etas, rhos) := st in
  f <- series_filter lams mus gammas alphas k n ireg ;;
  Ud <- dot_mv (transpose (cols_slice U None
                             (Some (Z.of_nat n - Z.of_nat k)%Z))) d ;;
  d_proj_scale <- broadcast div Ud
                    (slice (Some (Z.of_nat k)) (Some (Z.of_nat n)) lams) ;;
  let F := diag_matrix f in
  Fd <- dot_mv F d_proj_scale ;;
  mod_ <- dot_mv (cols_slice Y (Some (Z.of_nat k)) None) Fd ;;
  Gm <- dot_mv G mod_ ;;
  res <- broadcast sub Gm d ;;
  let rhos := setitem rhos ireg (norm res) in
  Lm <- dot_mv L mod_ ;;
  let etas := setitem etas ireg (norm Lm) in
  Ok (etas, rhos).

Definition tikh_gsvd (U X LAM MU : matrix) (d : list float) (G L : matrix)
  (npoints : nat) (alpha_min alpha_max : option float)
  : result (list float * list float * list float) :=
  let m := nrows G in
  let n := ncols G in
  p <- lapack (matrix_rank L) ;;
  LL <- dot (transpose LAM) LAM ;;
  let lams := map sqrt (diag_of LL 0) in
  MM <- dot (transpose MU) MU ;;
  let mus := map sqrt (diag_of MM 0) in
  gammas <- broadcast div lams mus ;;
  '(start, stop) <- tikh_gsvd_bounds gammas m n p alpha_min alpha_max ;;
  let alphas := loglinspace start stop npoints in
  let k := if (n <? m)%nat then 0%nat else (n - m)%nat in
  let etas := zeros npoints in
  let rhos := zeros npoints in
  Xi <- lapack (inv X) ;;
  let Y := transpose Xi in
  '(etas, rhos) <- for_range 0 npoints
                     (tikh_gsvd_step U Y G L lams mus gammas d alphas k n)
                     (etas, rhos) ;;
  Ok (rhos, etas, alphas).

(** ** [corner_maxcurv] (lines 206-272) *)

(** One side of every triangle: [np.sqrt((xa - xb)**2 + (ya - yb)**2)]. *)
Definition side_lengths (xa ya xb yb : list float) : result (list float) :=
  dx <- broadcast sub xa xb ;;
  dy <- broadcast sub ya yb ;;
  r <- broadcast add (map sq dx) (map sq dy) ;;
  Ok (map sqrt r).

(** Lines 238-265: the curvature of the interior points, [1.0 / radii]. *)
Definition interior_curvature (rhos etas : list float)
  : result (list float) :=
  let xs := map ln rhos in
  let ys := map ln etas in
  let x1 := slice None (Some (-2)%Z) xs in
  let x2 := slice (Some 1%Z) (Some (-1)%Z) xs in
  let x3 := slice (Some 2%Z) None xs in
  let y1 := slice None (Some (-2)%Z) ys in
  let y2 := slice (Some 1%Z) (Some (-1)%Z) ys in
  let y3 := slice (Some 2%Z) None ys in
  a <- side_lengths x1 y1 x2 y2 ;;
  b <- side_lengths x2 y2 x3 y3 ;;
  c <- side_lengths x3 y3 x1 y1 ;;
  ab <- broadcast add a b ;;
  abc <- broadcast add ab c ;;
  let s := map (fun v => v / 2) abc in
  sa <- broadcast sub s a ;;
  t1 <- broadcast mul s sa ;;
  sb <- broadcast sub s b ;;
  t2 <- broadcast mul t1 sb ;;
  sc <- broadcast sub s c ;;
  t3 <- broadcast mul t2 sc ;;
  let areas := map sqrt t3 in
  ab' <- broadcast mul a b ;;
  abc' <- broadcast mul ab' c ;;
  radii <- broadcast div abc' (map (fun v => 4 * v) areas) ;;
  Ok (map (fun r => 1 / r) radii).

Definition corner_maxcurv (rhos etas alphas : list float)
  : result (float * float * float) :=
  curv <- interior_curvature rhos etas ;;
  let kappa := 0 :: curv ++ [0] in
  i_corner <- nanargmax (map abs (slice (Some 1%Z) (Some (-1)%Z) kappa)) ;;
  alpha_corner <- getitem alphas (Z.of_nat i_corner) ;;
  rho_corner <- getitem rhos (Z.of_nat i_corner) ;;
  eta_corner <- getitem etas (Z.of_nat i_corner) ;;
  Ok (rho_corner, eta_corner, alpha_corner).

(** ** [corner_mdf_svd] and [corner_mdf_gsvd] (lines 275-434)

    The two functions differ only in the sweep they call and in the
    subdivision that yields the default [alpha_init]; [sweep npoints
    alpha_min alpha_max] stands for [tikh_svd(U, s, d, ...)] or
    [tikh_gsvd(U, X, LAM, MU, d, G, L, ...)]. *)

Definition sweep_fn : Type :=
  nat -> option float -> option float
  -> result (list float * list float * list float).

(** [x / y] on Python floats. *)
Definition float_div (x y : float) : result float :=
  if y =? 0 then Raise ZeroDivisionError else Ok (x / y).

(** [x ** 2] on a Python float: a finite [x] whose square overflows
    raises. *)
Definition float_pow2 (x : float) : result float :=
  if is_finite x && is_infinity (x * x)
  then Raise OverflowError
  else Ok (x * x).

(** The local function [f] (lines 323-332, 409-419); [np.asscalar] turns
    [rho_pre] and [eta_pre] into Python floats. *)
Definition mdf_update (sweep : sweep_fn) (a b : float) (alpha_pre : float)
  : result float :=
  '(rho_pre, eta_pre, _) <- sweep 1%nat (Some alpha_pre) (Some alpha_pre) ;;
  rho_pre <- asscalar rho_pre ;;
  eta_pre <- asscalar eta_pre ;;
  q <- float_div rho_pre eta_pre ;;
  dum1 <- float_pow2 q ;;
  e2 <- float_pow2 eta_pre ;;
  let dum2 := log10 e2 - b in
  r2 <- float_pow2 rho_pre ;;
  let dum3 := log10 r2 - a in
  Ok (sqrt (dum1 * (dum2 / dum3))).

(** The variables of the fixed-point loop.  [evaluated] is not a variable
    of the program: it lists the arguments [f] has been applied to, the
    latest first. *)
Record mdf_state : Type := MdfState {
  alpha_next : float;
  change : float;
  counter : Z;
  evaluated : list float
}.

(** Lines 338-342.  [None]: the loop is still running after [fuel]
    turns. *)
Fixpoint mdf_while (fuel : nat) (f : float -> result float) (tol : float)
  (maxiter : Z) (st : mdf_state) : option (result mdf_state) :=
  if (tol <? change st) && (counter st <? maxiter)%Z
  then
    match fuel with
    | O => None
    | S fuel' =>
        let alpha_pre := alpha_next st in
        match f alpha_pre with
        | Raise e => Some (Raise e)
        | Ok alpha_next =>
            mdf_while fuel' f tol maxiter
              (MdfState alpha_next
                        (abs (alpha_next / alpha_pre - 1))
                        (counter st + 1)
                        (alpha_pre :: evaluated st))
        end
    end
  else Some (Ok st).

(** Lines 334-342. *)
Definition mdf_iterate (fuel : nat) (f : float -> result float)
  (alpha_init tol : float) (maxiter : Z) : option (result mdf_state) :=
  match f alpha_init with
  | Raise e => Some (Raise e)
  | Ok alpha_next =>
      mdf_while fuel f tol maxiter
        (MdfState alpha_next (abs (alpha_next / alpha_init - 1)) 1
                  [alpha_init])
  end.

(** Lines 315-321, 401-407: the origin [(a, b)] and the first iterate. *)
Definition mdf_origin (sweep : sweep_fn) (nq : nat) (iq : Z)
  (alpha_init : option float) : result (float * float * float) :=
  '(rhos, etas, alphas) <- sweep 2%nat None None ;;
  imin <- argmin alphas ;;
  r <- getitem rhos (Z.of_nat imin) ;;
  let a := log10 (sq r) in
  imax <- argmax alphas ;;
  e <- getitem etas (Z.of_nat imax) ;;
  let b := log10 (sq e) in
  alpha_init <-
    match alpha_init with
    | Some v => if truthy alpha_init then Ok v
                else
                  a0 <- getitem alphas 0 ;;
                  a1 <- getitem alphas 1 ;;
                  getitem (loglinspace a0 a1 nq) iq
    | None =>
        a0 <- getitem alphas 0 ;;
        a1 <- getitem alphas 1 ;;
        getitem (loglinspace a0 a1 nq) iq
    end ;;
  Ok (a, b, alpha_init).

(** Lines 344-348, 431-434: the last evaluation, at [alpha]. *)
Definition mdf_final (sweep : sweep_fn) (alpha : float)
  : result (float * float * float) :=
  '(rhos, etas, alphas) <- sweep 1%nat (Some alpha) (Some alpha) ;;
  rho_corner <- asscalar rhos ;;
  eta_corner <- asscalar etas ;;
  alpha_corner <- asscalar alphas ;;
  Ok (alpha_corner, rho_corner, eta_corner).

Definition corner_mdf (fuel : nat) (sweep : sweep_fn) (nq : nat) (iq : Z)
  (alpha_init : option float) (tol : float) (maxiter : Z)
  : option (result (float * float * float)) :=
  match mdf_origin sweep nq iq alpha_init with
  | Raise e => Some (Raise e)
  | Ok (a, b, alpha_init) =>
      match mdf_iterate fuel (mdf_update sweep a b) alpha_init tol maxiter with
      | None => None
      | Some (Raise e) => Some (Raise e)
      | Some (Ok st) => Some (mdf_final sweep (alpha_next st))
      end
  end.

Definition corner_mdf_svd (fuel : nat) (U : matrix) (s d : list float)
  (alpha_init : option float) (tol : float) (maxiter : Z)
  : option (result (float * float * float)) :=
  corner_mdf fuel (tikh_svd U s d) 3 1 alpha_init tol maxiter.

Definition corner_mdf_gsvd (fuel : nat) (U X LAM MU : matrix)
  (d : list float) (G L : matrix)
  (alpha_init : option float) (tol : float) (maxiter : Z)
  : option (result (float * float * float)) :=
  corner_mdf fuel (tikh_gsvd U X LAM MU d G L) 9 4 alpha_init tol maxiter.

End Lcurve.

End Lcurve.

(** * Inputs and LAPACK stand-ins used to evaluate the model *)

Module Examples.

Import Linalg.

Open Scope float_scope.

Definition of_rows (r c : nat) (l : list (list float)) : matrix :=
  Matrix r c (fun i j => nth j (nth i l []) 0).

Definition to_rows (M : matrix) : list (list float) :=
  map (row M) (seq 0 (nrows M)).

(** The singular value decomposition of a matrix that is already diagonal
    with a non-negative, non-increasing diagonal: [M = I * diag * I]. *)
Definition svd_diagonal (M : matrix)
  : option (matrix * list float * matrix) :=
  Some (identity (nrows M), diag_of M 0, identity (ncols M)).

(** The QR factorization of a matrix that is already upper triangular:
    [M = I * M]. *)
Definition qr_triangular (M : matrix) : option (matrix * matrix) :=
  Some (identity (nrows M), M).

Definition qr_economic_triangular (M : matrix) : option (matrix * matrix) :=
  let k := Nat.min (nrows M) (ncols M) in
  Some (Matrix (nrows M) k (fun i j => if Nat.eqb i j then 1 else 0),
        block M 0 k 0 (ncols M)).

(** The inverse and the rank of an identity matrix. *)
Definition inv_identity (M : matrix) : option matrix := Some M.

Definition rank_identity (M : matrix) : option nat := Some (nrows M).

(** A driver that always fails. *)
Definition no_svd (M : matrix) : option (matrix * list float * matrix) := None.

Definition no_qr (M : matrix) : option (matrix * matrix) := None.


Definition I2 : matrix := identity 2.

(** Observers of a result: whether the call returned, and the shape of
    the column of generalized singular values. *)
Definition is_ok {A : Type} (r : result A) : bool :=
  match r with
  | Ok _ => true
  | Raise _ => false
  end.

Definition values_shape (r : result gsvd_result) : option (nat * nat) :=
  match r with
  | Ok (Values sigma) => Some (nrows sigma, ncols sigma)
  | _ => None
  end.

(** Stand-ins for the C library in evaluations whose outcome does not
    depend on it. *)
Definition id_float (x : float) : float := x.

End Examples.

Import Linalg Lcurve Examples.

Open Scope float_scope.

(** * Facts about float64 comparisons *)

Lemma SFcompare_antisym (x y : spec_float) :
  SFcompare y x = option_map CompOpp (SFcompare x y).
Proof.
  destruct x as [sx|sx| |sx mx ex], y as [sy|sy| |sy my ey]; simpl;
    try reflexivity;
    try (destruct sx; reflexivity); try (destruct sy; reflexivity);
    try (destruct sx, sy; reflexivity).
  destruct sx, sy; simpl; try reflexivity;
    rewrite (Z.compare_antisym ex ey);
    destruct (ex ?= ey)%Z eqn:E; simpl; try reflexivity;
    fold (Pos.compare mx my); fold (Pos.compare my mx);
    rewrite (Pos.compare_antisym mx my);
    destruct (Pos.compare mx my); reflexivity.
Qed.

Lemma SFcompare_none (x y : spec_float) :
  SFcompare x y = None -> x = S754_nan \/ y = S754_nan.
Proof.
  destruct x as [sx|sx| |sx mx ex], y as [sy|sy| |sy my ey]; simpl; auto;
    discriminate.
Qed.

Lemma is_nan_spec (x : float) : is_nan x = true <-> Prim2SF x = S754_nan.
Proof.
  unfold is_nan. rewrite eqb_spec. unfold SFeqb.
  destruct (Prim2SF x) as [s|s| |s m e]; simpl.
  - split; discriminate.
  - destruct s; split; discriminate.
  - split; reflexivity.
  - destruct s; rewrite Z.compare_refl; fold (Pos.compare m m);
      rewrite Pos.compare_refl; simpl; split; discriminate.
Qed.

Lemma leb_not_ltb (x y : float) : (x <=? y) = true -> (y <? x) = false.
Proof.
  rewrite leb_spec, ltb_spec. unfold SFleb, SFltb.
  rewrite (SFcompare_antisym (Prim2SF x) (Prim2SF y)).
  destruct (SFcompare (Prim2SF x) (Prim2SF y)) as [[ | | ]|]; simpl;
    congruence.
Qed.

Lemma not_ltb_leb (x y : float) :
  (x <? y) = false -> is_nan x = false -> is_nan y = false ->
  (y <=? x) = true.
Proof.
  intros H Hx Hy. rewrite leb_spec. rewrite ltb_spec in H.
  unfold SFleb, SFltb in *.
  rewrite (SFcompare_antisym (Prim2SF x) (Prim2SF y)).
  destruct (SFcompare (Prim2SF x) (Prim2SF y)) as [[ | | ]|] eqn:E; simpl;
    try congruence.
  apply SFcompare_none in E.
  destruct E as [E|E]; apply is_nan_spec in E; congruence.
Qed.

Lemma ltb_leb (x y : float) : (x <? y) = true -> (x <=? y) = true.
Proof.
  rewrite leb_spec, ltb_spec. unfold SFleb, SFltb.
  destruct (SFcompare (Prim2SF x) (Prim2SF y)) as [[ | | ]|]; simpl;
    congruence.
Qed.

Lemma leb_not_nan_l (x y : float) : (x <=? y) = true -> is_nan x = false.
Proof.
  intros H. destruct (is_nan x) eqn:E; [|reflexivity].
  apply is_nan_spec in E. rewrite leb_spec, E in H. discriminate.
Qed.

Lemma leb_refl (x : float) : is_nan x = false -> (x <=? x) = true.
Proof.
  intros H. apply not_ltb_leb; try assumption.
  rewrite ltb_spec. unfold SFltb.
  destruct (Prim2SF x) as [s|s| |s m e]; simpl; try reflexivity.
  - now destruct s.
  - destruct s; rewrite Z.compare_refl; fold (Pos.compare m m);
      now rewrite Pos.compare_refl.
Qed.

Lemma eqb_zero_spec (x : float) :
  (x =? 0) = true -> exists s, Prim2SF x = S754_zero s.
Proof.
  rewrite eqb_spec. unfold SFeqb.
  replace (Prim2SF 0) with (S754_zero false) by reflexivity.
  destruct (Prim2SF x) as [s|s| |s m e]; simpl; try discriminate.
  - eauto.
  - destruct s; discriminate.
  - destruct s; discriminate.
Qed.

(** [0/0] is NaN, whatever the signs of the zeros. *)
Lemma zero_div_zero (x y : float) :
  (x =? 0) = true -> (y =? 0) = true -> is_nan (x / y) = true.
Proof.
  intros Hx Hy. apply eqb_zero_spec in Hx, Hy.
  destruct Hx as [sx Hx], Hy as [sy Hy].
  apply is_nan_spec. rewrite div_spec, Hx, Hy. reflexivity.
Qed.

(** * Facts about the Python and NumPy layer *)

Lemma bind_ok {A B : Type} (x : result A) (k : A -> result B) (b : B) :
  bind x k = Ok b -> exists a, x = Ok a /\ k a = Ok b.
Proof. destruct x; simpl; intros H; [eauto | discriminate]. Qed.

Lemma length_zeros (n : nat) : length (zeros n) = n.
Proof. apply repeat_length. Qed.

Lemma length_setitem {A : Type} (l : list A) (i : nat) (v : A) :
  length (setitem l i v) = length l.
Proof.
  revert i; induction l as [|h t IH]; intros [|i]; simpl; auto.
Qed.

Lemma length_loglinspace (log10 pow10 : float -> float) (a b : float)
  (n : nat) : length (loglinspace log10 pow10 a b n) = n.
Proof. unfold loglinspace. now rewrite length_map, length_seq. Qed.

Lemma hd_loglinspace (log10 pow10 : float -> float) (a b : float) (n : nat) :
  getitem (loglinspace log10 pow10 a b (S n)) 0 = Ok a.
Proof. reflexivity. Qed.

Lemma getitem_nat {A : Type} (l : list A) (i : nat) :
  (i < length l)%nat -> exists a, getitem l (Z.of_nat i) = Ok a.
Proof.
  intros H. unfold getitem.
  destruct (Z.ltb_spec (Z.of_nat i) 0); [lia|].
  destruct (Z.leb_spec 0 (Z.of_nat i)); [|lia].
  destruct (Z.ltb_spec (Z.of_nat i) (Z.of_nat (length l))); [|lia].
  simpl. rewrite Nat2Z.id.
  destruct (nth_error l i) eqn:E; [eauto|].
  apply nth_error_None in E. lia.
Qed.

Lemma broadcast_same (op : float -> float -> float) (x y : list float) :
  length x = length y ->
  broadcast op x y
  = Ok (map (fun ab => op (fst ab) (snd ab)) (combine x y)).
Proof.
  intros H. unfold broadcast. now rewrite H, Nat.eqb_refl.
Qed.

Lemma length_zip (op : float -> float -> float) (x y : list float) :
  length x = length y ->
  length (map (fun ab => op (fst ab) (snd ab)) (combine x y)) = length x.
Proof. intros H. rewrite length_map, length_combine. lia. Qed.

(** A loop whose body keeps an invariant and returns, returns with the
    invariant. *)
Lemma for_range_from_returns {St : Type} (P : St -> Prop)
  (body : nat -> St -> result St) (n i : nat) (st : St) :
  (forall j s, (i <= j < i + n)%nat -> P s ->
               exists s', body j s = Ok s' /\ P s') ->
  P st ->
  exists st', for_range_from i n body st = Ok st' /\ P st'.
Proof.
  revert i st; induction n as [|n IH]; intros i st Hbody Hst; simpl.
  - eauto.
  - destruct (Hbody i st) as (s' & E & Hs'); [lia|assumption|].
    rewrite E; simpl. apply IH; [|assumption].
    intros j s Hj. apply Hbody. lia.
Qed.

(** Whatever a loop returns satisfies the invariant its body keeps. *)
Lemma for_range_from_keeps {St : Type} (P : St -> Prop)
  (body : nat -> St -> result St) (n i : nat) (st st' : St) :
  (forall j s s', P s -> body j s = Ok s' -> P s') ->
  P st -> for_range_from i n body st = Ok st' -> P st'.
Proof.
  revert i st; induction n as [|n IH]; intros i st Hbody Hst; simpl.
  - intros [= <-]. assumption.
  - intros H. apply bind_ok in H. destruct H as (s & E & H).
    apply (IH (S i) s); [exact Hbody | exact (Hbody i st s Hst E) | exact H].
Qed.

Lemma length_slice_prefix {A : Type} (l : list A) (p : nat) :
  length (slice None (Some (Z.of_nat p)) l) = Nat.min p (length l).
Proof.
  unfold slice, clamp.
  destruct (Z.ltb_spec (Z.of_nat p) 0); [lia|].
  rewrite Z.sub_0_r. simpl skipn. rewrite length_firstn. lia.
Qed.


Lemma dot_mv_returns (M : matrix) (v : list float) :
  ncols M = length v -> exists w, dot_mv M v = Ok w /\ length w = nrows M.
Proof.
  intros H. unfold dot_mv. rewrite H, Nat.eqb_refl.
  eexists; split; [reflexivity|]. now rewrite length_map, length_seq.
Qed.

(** * [tikh_svd]: the shape of what it returns *)

Section TikhSvd.

Variables log10 pow10 : float -> float.

Let lengths (n : nat) (st : list float * list float) : Prop :=
  length (fst st) = n /\ length (snd st) = n.

Lemma tikh_svd_step_keeps (n : nat) (s2 dp dps alphas : list float)
  (i : nat) (st st' : list float * list float) :
  lengths n st -> tikh_svd_step s2 dp dps alphas i st = Ok st' ->
  lengths n st'.
Proof.
  destruct st as [etas rhos]. unfold lengths, tikh_svd_step; simpl.
  intros [He Hr] H.
  repeat (apply bind_ok in H; destruct H as (? & _ & H)).
  injection H as <-. simpl. now rewrite !length_setitem.
Qed.

Lemma tikh_svd_step_returns (n p : nat) (s2 dp dps alphas : list float)
  (i : nat) (st : list float * list float) :
  length s2 = p -> length dp = p -> length dps = p ->
  (i < length alphas)%nat -> lengths n st ->
  exists st', tikh_svd_step s2 dp dps alphas i st = Ok st' /\ lengths n st'.
Proof.
  destruct st as [etas rhos]. unfold lengths; simpl.
  intros H2 Hp Hs Hi [He Hr]. unfold tikh_svd_step.
  destruct (getitem_nat alphas i Hi) as [alpha ->]. simpl.
  rewrite broadcast_same by now rewrite length_map. simpl.
  rewrite broadcast_same by (rewrite length_zip; [congruence | now rewrite length_map]).
  simpl.
  rewrite broadcast_same
    by (rewrite length_map, length_zip; [congruence | now rewrite length_map]).
  simpl. eexists; split; [reflexivity|]. simpl. now rewrite !length_setitem.
Qed.

(** Whatever [tikh_svd] returns: the regularization parameters are the
    sweep between the two ends, and the three vectors have [npoints]
    entries. *)
Lemma tikh_svd_shape (U : matrix) (s d : list float) (npoints : nat)
  (alpha_min alpha_max : option float) (rhos etas alphas : list float) :
  tikh_svd log10 pow10 U s d npoints alpha_min alpha_max
  = Ok (rhos, etas, alphas) ->
  exists start stop,
    tikh_svd_bounds s alpha_min alpha_max = Ok (start, stop)
    /\ alphas = loglinspace log10 pow10 start stop npoints
    /\ length rhos = npoints /\ length etas = npoints
    /\ length alphas = npoints.
Proof.
  unfold tikh_svd. intros H.
  apply bind_ok in H. destruct H as ([start stop] & Hb & H).
  apply bind_ok in H. destruct H as (d_proj & _ & H).
  apply bind_ok in H. destruct H as (d_proj_scale & _ & H).
  apply bind_ok in H. destruct H as ([etas' rhos'] & Hloop & H).
  injection H as <- <- <-.
  exists start, stop. split; [assumption|]. split; [reflexivity|].
  assert (L : lengths npoints (etas', rhos')).
  { unfold for_range in Hloop.
    eapply (for_range_from_keeps (lengths npoints)); [| |exact Hloop].
    - intros j st st'. apply tikh_svd_step_keeps.
    - split; apply length_zeros. }
  destruct L as [Le Lr]; simpl in Le, Lr.
  split; [|split; [assumption | apply length_loglinspace]].
  destruct (_ && _); [now rewrite length_map | assumption].
Qed.

(** [tikh_svd] returns as soon as its ends are defined, [d] has one entry
    per row of [U] and [U] has at least as many columns as there are
    singular values. *)
Lemma tikh_svd_returns (U : matrix) (s d : list float) (npoints : nat)
  (alpha_min alpha_max : option float) (start stop : float) :
  tikh_svd_bounds s alpha_min alpha_max = Ok (start, stop) ->
  length d = nrows U -> (length s <= ncols U)%nat ->
  exists rhos etas,
    tikh_svd log10 pow10 U s d npoints alpha_min alpha_max
    = Ok (rhos, etas, loglinspace log10 pow10 start stop npoints).
Proof.
  intros Hb Hd Hs. unfold tikh_svd. rewrite Hb. simpl.
  destruct (dot_mv_returns (transpose U) d) as (d_proj & -> & Lp);
    [simpl; congruence|]. simpl in Lp. simpl.
  assert (Lsl : length (slice None (Some (Z.of_nat (length s))) d_proj)
                = length s).
  { rewrite length_slice_prefix. lia. }
  rewrite broadcast_same by assumption. simpl.
  unfold for_range. rewrite Nat.sub_0_r.
  edestruct (for_range_from_returns (lengths npoints)) as ([etas rhos] & -> & _).
  - intros j st Hj Hst.
    apply tikh_svd_step_returns with (p := length s); try assumption.
    + apply length_map.
    + now rewrite length_zip.
    + rewrite length_loglinspace. lia.
  - split; apply length_zeros.
  - simpl. eauto.
Qed.

End TikhSvd.

(** * [tikh_gsvd]: the shape of what it returns *)

Section TikhGsvd.

Variables log10 pow10 : float -> float.
Variable matrix_rank : matrix -> option nat.
Variable inv : matrix -> option matrix.

Let lengths (n : nat) (st : list float * list float) : Prop :=
  length (fst st) = n /\ length (snd st) = n.

Lemma filter_coefficient_returns (lams mus gammas alphas : list float)
  (ireg igam : nat) :
  (igam < length gammas)%nat -> (igam < length lams)%nat ->
  (igam < length mus)%nat -> (ireg < length alphas)%nat ->
  exists c, filter_coefficient lams mus gammas alphas ireg igam = Ok c.
Proof.
  intros Hg Hl Hm Ha. unfold filter_coefficient.
  destruct (getitem_nat gammas igam Hg) as [gam ->]. simpl.
  destruct (isinf gam || isnan gam); [eauto|].
  destruct (getitem_nat lams igam Hl) as [lam ->]. simpl.
  destruct (getitem_nat mus igam Hm) as [mu ->].
  destruct (getitem_nat alphas ireg Ha) as [alpha ->].
  destruct (lam =? 0); simpl; [destruct (mu =? 0)|]; simpl; eauto.
Qed.

Lemma series_filter_returns (lams mus gammas alphas : list float)
  (k n ireg : nat) :
  length gammas = n -> length lams = n -> length mus = n ->
  (ireg < length alphas)%nat ->
  exists f, series_filter lams mus gammas alphas k n ireg = Ok f
            /\ length f = n.
Proof.
  intros Hg Hl Hm Ha. unfold series_filter, for_range.
  apply (for_range_from_returns (fun f => length f = n)).
  - intros j f Hj Hf.
    destruct (filter_coefficient_returns lams mus gammas alphas ireg j)
      as [c ->]; try lia.
    simpl. eexists; split; [reflexivity|]. now rewrite length_setitem.
  - apply length_zeros.
Qed.

Lemma tikh_gsvd_step_keeps (n0 : nat) (U Y G L : matrix)
  (lams mus gammas d alphas : list float) (k n ireg : nat)
  (st st' : list float * list float) :
  lengths n0 st ->
  tikh_gsvd_step U Y G L lams mus gammas d alphas k n ireg st = Ok st' ->
  lengths n0 st'.
Proof.
  destruct st as [etas rhos]. unfold lengths, tikh_gsvd_step; simpl.
  intros [He Hr] H.
  repeat (apply bind_ok in H; destruct H as (? & _ & H)).
  injection H as <-. simpl. now rewrite !length_setitem.
Qed.

(** Whatever [tikh_gsvd] returns: the regularization parameters are the
    sweep between the two ends, and the three vectors have [npoints]
    entries. *)
Lemma tikh_gsvd_shape (U X LAM MU : matrix) (d : list float) (G L : matrix)
  (npoints : nat) (alpha_min alpha_max : option float)
  (rhos etas alphas : list float) :
  tikh_gsvd log10 pow10 matrix_rank inv U X LAM MU d G L npoints
            alpha_min alpha_max = Ok (rhos, etas, alphas) ->
  exists gammas p start stop,
    tikh_gsvd_bounds gammas (nrows G) (ncols G) p alpha_min alpha_max
    = Ok (start, stop)
    /\ alphas = loglinspace log10 pow10 start stop npoints
    /\ length rhos = npoints /\ length etas = npoints
    /\ length alphas = npoints.
Proof.
  unfold tikh_gsvd. intros H.
  apply bind_ok in H. destruct H as (p & _ & H).
  apply bind_ok in H. destruct H as (LL & _ & H).
  apply bind_ok in H. destruct H as (MM & _ & H).
  apply bind_ok in H. destruct H as (gammas & _ & H).
  apply bind_ok in H. destruct H as ([start stop] & Hb & H).
  apply bind_ok in H. destruct H as (Xi & _ & H).
  apply bind_ok in H. destruct H as ([etas' rhos'] & Hloop & H).
  injection H as <- <- <-.
  exists gammas, p, start, stop. split; [assumption|]. split; [reflexivity|].
  assert (Len : lengths npoints (etas', rhos')).
  { unfold for_range in Hloop.
    eapply (for_range_from_keeps (lengths npoints)); [| |exact Hloop].
    - intros j st st'. apply tikh_gsvd_step_keeps.
    - split; apply length_zeros. }
  destruct Len as [Le Lr]; simpl in Le, Lr.
  repeat split; try assumption. apply length_loglinspace.
Qed.

Lemma length_slice_range {A : Type} (l : list A) (a b : nat) :
  length (slice (Some (Z.of_nat a)) (Some (Z.of_nat b)) l)
  = (Nat.min b (length l) - Nat.min a (length l))%nat.
Proof.
  unfold slice, clamp.
  destruct (Z.ltb_spec (Z.of_nat a) 0); [lia|].
  destruct (Z.ltb_spec (Z.of_nat b) 0); [lia|].
  rewrite length_firstn, length_skipn. lia.
Qed.

Lemma length_diag_of_main (M : matrix) :
  length (diag_of M 0) = Nat.min (nrows M) (ncols M).
Proof.
  unfold diag_of. simpl. rewrite length_map, length_seq. lia.
Qed.

Lemma cols_slice_prefix (M : matrix) (n : nat) :
  (n <= ncols M)%nat ->
  ncols (cols_slice M None (Some (Z.of_nat n))) = n
  /\ nrows (cols_slice M None (Some (Z.of_nat n))) = nrows M.
Proof.
  intros H. unfold cols_slice, clamp; simpl.
  destruct (Z.ltb_spec (Z.of_nat n) 0); [lia|]. split; lia.
Qed.

Lemma cols_slice_all (M : matrix) :
  ncols (cols_slice M (Some 0%Z) None) = ncols M
  /\ nrows (cols_slice M (Some 0%Z) None) = nrows M.
Proof. unfold cols_slice, clamp; simpl. split; lia. Qed.

(** [tikh_gsvd] returns on a system that is not under-determined, when
    the two LAPACK drivers return, the factors have the shapes of a GSVD
    of [(G, L)] and the two ends are defined. *)
Lemma tikh_gsvd_returns (U X LAM MU : matrix) (d : list float) (G L : matrix)
  (npoints : nat) (alpha_min alpha_max : option float) (p : nat)
  (Xi : matrix) :
  (ncols G <= nrows G)%nat ->
  matrix_rank L = Some p ->
  inv X = Some Xi -> nrows Xi = ncols G -> ncols Xi = ncols G ->
  ncols LAM = ncols G -> ncols MU = ncols G ->
  nrows U = length d -> length d = nrows G -> (ncols G <= ncols U)%nat ->
  ncols L = ncols G ->
  (forall gammas, length gammas = ncols G ->
     exists b, tikh_gsvd_bounds gammas (nrows G) (ncols G) p
                 alpha_min alpha_max = Ok b) ->
  exists r, tikh_gsvd log10 pow10 matrix_rank inv U X LAM MU d G L npoints
              alpha_min alpha_max = Ok r.
Proof.
  intros Hmn Hrank Hinv HXr HXc HLAM HMU HU Hd HUc HL Hbounds.
  unfold tikh_gsvd. rewrite Hrank, Hinv. simpl.
  unfold dot at 1. simpl. rewrite Nat.eqb_refl. simpl.
  unfold dot at 1. simpl. rewrite Nat.eqb_refl. simpl.
  set (lams := map sqrt (diag_of _ 0)).
  set (mus := map sqrt (diag_of _ 0)).
  assert (Ll : length lams = ncols G).
  { unfold lams. rewrite length_map, length_diag_of_main. simpl. lia. }
  assert (Lm : length mus = ncols G).
  { unfold mus. rewrite length_map, length_diag_of_main. simpl. lia. }
  rewrite broadcast_same by congruence. simpl.
  set (gammas := map _ (combine lams mus)).
  assert (Lg : length gammas = ncols G).
  { unfold gammas. rewrite length_zip; congruence. }
  destruct (Hbounds gammas Lg) as ([start stop] & ->). simpl.
  assert (Hk : (if (ncols G <? nrows G)%nat then 0%nat
                else (ncols G - nrows G)%nat) = 0%nat).
  { destruct (Nat.ltb_spec (ncols G) (nrows G)); lia. }
  rewrite Hk. unfold for_range. rewrite Nat.sub_0_r.
  edestruct (for_range_from_returns (lengths npoints))
    as ([etas rhos] & -> & _); [| |simpl; eauto].
  2: { split; apply length_zeros. }
  intros j [etas rhos] Hj [He Hr]; simpl in He, Hr.
  unfold tikh_gsvd_step.
  destruct (series_filter_returns lams mus gammas
              (loglinspace log10 pow10 start stop npoints) 0 (ncols G) j)
    as (f & -> & Lf); try assumption.
  { rewrite length_loglinspace. lia. }
  simpl. rewrite Z.sub_0_r.
  destruct (cols_slice_prefix U (ncols G) HUc) as [Uc Ur].
  destruct (dot_mv_returns
              (transpose (cols_slice U None (Some (Z.of_nat (ncols G))))) d)
    as (Ud & -> & LUd); [simpl; congruence|].
  cbn [transpose nrows] in LUd. rewrite Uc in LUd. simpl.
  rewrite broadcast_same
    by (change 0%Z with (Z.of_nat 0); rewrite length_slice_range; lia).
  simpl.
  match goal with
  | |- context [dot_mv (diag_matrix f) ?v] =>
      destruct (dot_mv_returns (diag_matrix f) v) as (Fd & -> & LFd)
  end.
  { simpl. rewrite length_zip;
      [lia | change 0%Z with (Z.of_nat 0); rewrite length_slice_range; lia]. }
  simpl in LFd. simpl.
  destruct (cols_slice_all (transpose Xi)) as [Yc Yr].
  destruct (dot_mv_returns (cols_slice (transpose Xi) (Some 0%Z) None) Fd)
    as (mod_ & -> & Lmod); [rewrite Yc; simpl; lia|].
  rewrite Yr in Lmod. simpl in Lmod. simpl.
  destruct (dot_mv_returns G mod_) as (Gm & -> & LGm); [lia|]. simpl.
  rewrite broadcast_same by lia. simpl.
  destruct (dot_mv_returns L mod_) as (Lm' & -> & _); [lia|]. simpl.
  eexists; split; [reflexivity|]. split; simpl; now rewrite length_setitem.
Qed.

End TikhGsvd.

(** * The ends of the sweeps *)

Lemma or_else_truthy (v : float) (dflt : result float) :
  truthy (Some v) = true -> or_else (Some v) dflt = Ok v.
Proof. unfold or_else. now intros ->. Qed.

Lemma or_else_zero (z : float) (dflt : result float) :
  (z =? 0) = true -> or_else (Some z) dflt = or_else None dflt.
Proof. intros H. unfold or_else, truthy. now rewrite H. Qed.

Lemma max2_bounded (a b c : float) :
  (a <=? c) = true -> (b <=? c) = true -> (max2 a b <=? c) = true.
Proof. intros Ha Hb. unfold max2. now destruct (a <? b). Qed.

(** [max(a, b)] of two floats that are not NaN is one of the two and is
    below neither. *)
Lemma max2_is_larger (a b : float) :
  is_nan a = false -> is_nan b = false ->
  (max2 a b = a \/ max2 a b = b)
  /\ (a <=? max2 a b) = true
  /\ (b <=? max2 a b) = true.
Proof.
  intros Ha Hb. unfold max2.
  destruct (a <? b) eqn:E.
  - split; [now right|]. split; [now apply ltb_leb | now apply leb_refl].
  - split; [now left|]. split; [now apply leb_refl | now apply not_ltb_leb].
Qed.

(** [sorted(..., reverse=True)] of two floats that are not NaN yields the
    larger one first. *)
Lemma sorted_reverse_ordered (a b : float) :
  is_nan a = false -> is_nan b = false ->
  (sorted_reverse a b = (a, b) \/ sorted_reverse a b = (b, a))
  /\ (snd (sorted_reverse a b) <=? fst (sorted_reverse a b)) = true.
Proof.
  intros Ha Hb. unfold sorted_reverse.
  destruct (a <? b) eqn:E; simpl.
  - split; [now right | now apply ltb_leb].
  - split; [now left | now apply not_ltb_leb].
Qed.

Lemma sorted_reverse_kept (a b : float) :
  (b <=? a) = true -> sorted_reverse a b = (a, b).
Proof.
  intros H. unfold sorted_reverse. now rewrite (leb_not_ltb b a H).
Qed.

Lemma tikh_svd_bounds_default (s : list float) (s0 s_last : float) :
  getitem s 0 = Ok s0 -> getitem s (-1) = Ok s_last ->
  tikh_svd_bounds s None None
  = Ok (sorted_reverse s0 (max2 s_last (s0 * (16 * eps)))).
Proof.
  intros H0 Hl. unfold tikh_svd_bounds. simpl. now rewrite H0, Hl.
Qed.

Lemma tikh_svd_bounds_explicit (s : list float) (lo hi : float) :
  truthy (Some lo) = true -> truthy (Some hi) = true ->
  tikh_svd_bounds s (Some lo) (Some hi) = Ok (sorted_reverse hi lo).
Proof.
  intros Hlo Hhi. unfold tikh_svd_bounds.
  now rewrite (or_else_truthy hi _ Hhi), (or_else_truthy lo _ Hlo).
Qed.

Lemma tikh_gsvd_bounds_explicit (gammas : list float) (m n p : nat)
  (lo hi : float) :
  truthy (Some lo) = true -> truthy (Some hi) = true ->
  tikh_gsvd_bounds gammas m n p (Some lo) (Some hi)
  = Ok (sorted_reverse hi lo).
Proof.
  intros Hlo Hhi. unfold tikh_gsvd_bounds. now rewrite Hlo, Hhi.
Qed.

(** * Rounding of the floor [s[0] * smin_ratio]

    [smin_ratio = 16 * eps] is [2^-48].  That the floor is not above
    [s[0]] is a fact of binary64 rounding, proved here from the
    specification of the multiplication. *)

Section Rounding.

Local Open Scope Z_scope.

(** One right shift of the rounding record halves the mantissa. *)
Lemma shr_1_m (mrs : shr_record) :
  0 <= shr_m mrs -> shr_m (shr_1 mrs) = shr_m mrs / 2.
Proof.
  destruct mrs as [m r s]. simpl. intros H.
  destruct m as [|p|p]; [reflexivity| |lia].
  destruct p as [p|p|]; simpl.
  - rewrite Pos2Z.inj_xI. apply Z.div_unique with (r := 1); lia.
  - rewrite Pos2Z.inj_xO. apply Z.div_unique with (r := 0); lia.
  - reflexivity.
Qed.

(** [p] right shifts divide the mantissa by [2^p]. *)
Lemma iter_shr_m (p : positive) : forall mrs,
  0 <= shr_m mrs ->
  shr_m (iter_pos shr_1 p mrs) = shr_m mrs / 2 ^ Zpos p.
Proof.
  induction p as [p IH|p IH|]; intros mrs H; simpl iter_pos.
  - assert (H1 : 0 <= shr_m (shr_1 mrs)).
    { rewrite shr_1_m by assumption. apply Z.div_pos; lia. }
    assert (H2 : 0 <= shr_m (iter_pos shr_1 p (shr_1 mrs))).
    { rewrite IH by assumption. apply Z.div_pos; [assumption|].
      apply Z.pow_pos_nonneg; lia. }
    rewrite IH by assumption. rewrite IH by assumption.
    rewrite shr_1_m by assumption.
    rewrite !Z.div_div by (try apply Z.pow_pos_nonneg; lia).
    f_equal.
    replace (Z.pos p~1) with (Z.succ (Z.pos p + Z.pos p)) by lia.
    rewrite Z.pow_succ_r, Z.pow_add_r by lia. lia.
  - assert (H2 : 0 <= shr_m (iter_pos shr_1 p mrs)).
    { rewrite IH by assumption. apply Z.div_pos; [assumption|].
      apply Z.pow_pos_nonneg; lia. }
    rewrite IH by assumption. rewrite IH by assumption.
    rewrite !Z.div_div by (try apply Z.pow_pos_nonneg; lia).
    f_equal.
    replace (Z.pos p~0) with (Z.pos p + Z.pos p) by lia.
    rewrite Z.pow_add_r by lia. lia.
  - now apply shr_1_m.
Qed.

(** [shr] by [n] places divides the mantissa by [2^max(0, n)] and adds as
    much to the exponent. *)
Lemma shr_spec (mrs : shr_record) (e n : Z) :
  0 <= shr_m mrs ->
  shr_m (fst (shr mrs e n)) = shr_m mrs / 2 ^ Z.max 0 n
  /\ snd (shr mrs e n) = e + Z.max 0 n.
Proof.
  intros H. unfold shr. destruct n as [|p|p]; simpl fst; simpl snd.
  - simpl. rewrite Z.div_1_r. lia.
  - rewrite iter_shr_m by assumption. rewrite Z.max_r by lia. split; lia.
  - simpl. rewrite Z.div_1_r. lia.
Qed.

(** Rounding to nearest even keeps the mantissa or adds one. *)
Lemma round_bounds (m : Z) (l : location) :
  m <= round_nearest_even m l <= m + 1.
Proof.
  unfold round_nearest_even. destruct l as [|[ | | ]]; try lia.
  destruct (Z.even m); lia.
Qed.

(** The number of binary digits of [m] is the least [k] with
    [m < 2^k]. *)
Lemma digits2_pos_bound (m : positive) : forall k,
  0 <= k -> Zpos m < 2 ^ k -> Zpos (digits2_pos m) <= k.
Proof.
  induction m as [m IH|m IH|]; intros k Hk H; simpl digits2_pos.
  - destruct (Z.eq_dec k 0) as [->|]; [simpl in H; lia|].
    rewrite Pos2Z.inj_succ. specialize (IH (k - 1)).
    replace k with (1 + (k - 1)) in H by lia. rewrite Z.pow_add_r in H by lia.
    change (2 ^ 1) with 2 in H. lia.
  - destruct (Z.eq_dec k 0) as [->|]; [simpl in H; lia|].
    rewrite Pos2Z.inj_succ. specialize (IH (k - 1)).
    replace k with (1 + (k - 1)) in H by lia. rewrite Z.pow_add_r in H by lia.
    change (2 ^ 1) with 2 in H. lia.
  - destruct (Z.eq_dec k 0) as [->|]; [simpl in H; lia|]. lia.
Qed.

Lemma digits2_pos_upper (m : positive) : Zpos m < 2 ^ Zpos (digits2_pos m).
Proof.
  induction m as [m IH|m IH|]; simpl digits2_pos.
  - rewrite Pos2Z.inj_succ, Z.pow_succ_r by lia. lia.
  - rewrite Pos2Z.inj_succ, Z.pow_succ_r by lia. lia.
  - reflexivity.
Qed.

Lemma Zdigits2_bound (z k : Z) : 0 <= k -> 0 <= z < 2 ^ k -> Zdigits2 z <= k.
Proof.
  intros Hk [H0 H]. destruct z as [|p|p]; simpl; [lia| |lia].
  now apply digits2_pos_bound.
Qed.

Lemma digits2_pos_lower (m : positive) :
  2 ^ (Zpos (digits2_pos m) - 1) <= Zpos m.
Proof.
  induction m as [m IH|m IH|]; simpl digits2_pos.
  - rewrite Pos2Z.inj_succ.
    replace (Z.succ (Z.pos (digits2_pos m)) - 1)
      with (Z.succ (Z.pos (digits2_pos m) - 1)) by lia.
    rewrite Z.pow_succ_r by lia. lia.
  - rewrite Pos2Z.inj_succ.
    replace (Z.succ (Z.pos (digits2_pos m)) - 1)
      with (Z.succ (Z.pos (digits2_pos m) - 1)) by lia.
    rewrite Z.pow_succ_r by lia. lia.
  - reflexivity.
Qed.

(** Multiplying a mantissa by [2^52] adds 52 binary digits. *)
Lemma digits2_pos_scaled (m M : positive) :
  Zpos M = Zpos m * 2 ^ 52 ->
  Zpos (digits2_pos M) = Zpos (digits2_pos m) + 52.
Proof.
  intros HM.
  pose proof (digits2_pos_upper m) as Um.
  pose proof (digits2_pos_lower m) as Lm.
  pose proof (digits2_pos_upper M) as UM.
  set (d := Zpos (digits2_pos m)) in *.
  set (D := Zpos (digits2_pos M)) in *.
  assert (Hd : 1 <= d) by (unfold d; lia).
  assert (HD : 1 <= D) by (unfold D; lia).
  assert (P52 : 0 < 2 ^ 52) by reflexivity.
  assert (Hle : D <= d + 52).
  { apply digits2_pos_bound; [lia|]. rewrite HM, Z.pow_add_r by lia. nia. }
  destruct (Z.le_gt_cases (d + 52) D) as [?|Hlt]; [lia|]. exfalso.
  assert (2 ^ D <= 2 ^ (d - 1 + 52)) by (apply Z.pow_le_mono_r; lia).
  rewrite Z.pow_add_r in * by lia. nia.
Qed.

(** The product of a binary64 mantissa and exponent by [2^-48]
    ([2^52 * 2^-100]), once rounded, does not exceed the number it scales:
    either the exponent drops, or the number is subnormal and the
    mantissa does. *)
Lemma scaled_round_le (m : positive) (e : Z) :
  bounded prec emax m e = true ->
  SFleb (binary_round_aux prec emax false (Zpos (m * 4503599627370496))
           (e + -100) loc_Exact)
        (S754_finite false m e) = true.
Proof.
  intros Hb. unfold bounded, canonical_mantissa, fexp in Hb.
  apply andb_prop in Hb. destruct Hb as [Hc He].
  apply Z.eqb_eq in Hc. apply Z.leb_le in He.
  change (SpecFloat.emin prec emax) with (-1074) in Hc.
  change prec with 53 in Hc, He. change emax with 1024 in He.
  pose proof (digits2_pos_upper m) as Hup.
  set (d := Zpos (digits2_pos m)) in *.
  assert (Hd1 : 1 <= d) by (unfold d; lia).
  destruct (Pos.eq_dec m 1) as [->|Hm1].
  { assert (Hd : d = 1) by reflexivity.
    assert (e = -1074) by lia. subst e.
    vm_compute. reflexivity. }
  assert (Hm2 : 2 <= Zpos m) by lia.
  unfold binary_round_aux, shr_fexp, fexp.
  change (SpecFloat.emin prec emax) with (-1074).
  change prec with 53. change emax with 1024.
  assert (HM : Zpos (m * 4503599627370496) = Zpos m * 2 ^ 52)
    by (rewrite Pos2Z.inj_mul; reflexivity).
  assert (HD : Zdigits2 (Zpos (m * 4503599627370496)) = d + 52).
  { apply (digits2_pos_scaled m _ HM). }
  rewrite HD.
  set (M := Zpos (m * 4503599627370496)) in *.
  set (n1 := Z.max (d + 52 + (e + -100) - 53) (-1074) - (e + -100)).
  destruct (shr_spec (shr_record_of_loc M loc_Exact) (e + -100) n1)
    as [S1 S2]; [simpl; lia|].
  destruct (shr (shr_record_of_loc M loc_Exact) (e + -100) n1)
    as [mrs' e'] eqn:E1.
  simpl fst in S1. simpl snd in S2. simpl shr_m in S1.
  pose proof (round_bounds (shr_m mrs') (loc_of_shr_record mrs')) as HR.
  set (m1 := shr_m mrs') in *.
  set (m1' := round_nearest_even m1 (loc_of_shr_record mrs')) in *.
  assert (Hn1 : 0 <= n1) by (unfold n1; lia).
  rewrite Z.max_r in S1, S2 by assumption.
  assert (P1 : 0 < 2 ^ n1) by (apply Z.pow_pos_nonneg; lia).
  assert (Hm1nn : 0 <= m1) by (rewrite S1; apply Z.div_pos; lia).
  assert (Hmul : m1 * 2 ^ n1 <= M).
  { rewrite S1, Z.mul_comm. apply Z.mul_div_le. assumption. }
  set (n2 := Z.max (Zdigits2 m1' + e' - 53) (-1074) - e').
  destruct (shr_spec (shr_record_of_loc m1' loc_Exact) e' n2)
    as [T1 T2]; [simpl; lia|].
  destruct (shr (shr_record_of_loc m1' loc_Exact) e' n2) as [mrs'' e''] eqn:E2.
  simpl fst in T1. simpl snd in T2. simpl shr_m in T1.
  set (m2 := shr_m mrs'') in *.
  assert (P2 : 0 < 2 ^ Z.max 0 n2) by (apply Z.pow_pos_nonneg; lia).
  assert (Hm2nn : 0 <= m2) by (rewrite T1; apply Z.div_pos; lia).
  assert (Hm2le : m2 <= m1').
  { rewrite T1. apply Z.div_le_upper_bound; [assumption|]. nia. }
  assert (C48 : 2 ^ 48 = 281474976710656) by reflexivity.
  assert (C52 : 2 ^ 52 = 4503599627370496) by reflexivity.
  assert (C53 : 2 ^ 53 = 9007199254740992) by reflexivity.
  assert (C54 : 2 ^ 54 = 18014398509481984) by reflexivity.
  assert (C6 : 2 ^ 6 = 64) by reflexivity.
  assert (F : e'' <= e /\ (e'' = e -> m2 <= Zpos m)).
  { destruct (Z.eq_dec e (-1074)) as [Ee|Ee].
    - (* smallest exponent *)
      assert (Hn100 : n1 = 100) by (unfold n1; lia).
      assert (Hpow : 2 ^ n1 = 2 ^ 48 * 2 ^ 52)
        by (rewrite Hn100; reflexivity).
      assert (Hd53 : d <= 53) by lia.
      assert (Hmlt : Zpos m < 2 ^ 53).
      { eapply Z.lt_le_trans; [exact Hup|]. apply Z.pow_le_mono_r; lia. }
      assert (Hm1b : m1 * 2 ^ 48 <= Zpos m) by nia.
      assert (Hdig : Zdigits2 m1' <= 6).
      { apply Zdigits2_bound; [lia|]. rewrite C6. nia. }
      assert (n2 <= 0) by (unfold n2; lia).
      assert (e'' = e) by lia.
      split; [lia|]. intros _. nia.
    - assert (d = 53) by lia.
      assert (Hmlt : Zpos m < 2 ^ 53) by (subst d; congruence).
      destruct (Z.le_gt_cases (-1074) (e - 48)) as [Hn|Hn].
      + assert (Hn52 : n1 = 52) by (unfold n1; lia).
        assert (m1 <= Zpos m) by (rewrite Hn52 in Hmul; nia).
        assert (Hdig : Zdigits2 m1' <= 54).
        { apply Zdigits2_bound; [lia|]. rewrite C54. lia. }
        assert (n2 <= 1) by (unfold n2; lia).
        split; lia.
      + assert (Hn53 : 53 <= n1) by (unfold n1; lia).
        assert (Hpow : 2 * 2 ^ 52 <= 2 ^ n1).
        { change (2 * 2 ^ 52) with (2 ^ 53). apply Z.pow_le_mono_r; lia. }
        assert (2 * m1 <= Zpos m) by nia.
        assert (Hdig : Zdigits2 m1' <= 53).
        { apply Zdigits2_bound; [lia|]. rewrite C53. lia. }
        assert (n2 <= 0) by (unfold n2; lia).
        split; lia. }
  destruct F as [F1 F2].
  destruct m2 as [|q|q] eqn:Em2; [reflexivity| |lia].
  destruct (Z.leb_spec e'' (1024 - 53)); [|lia].
  unfold SFleb, SFcompare.
  destruct (Z.compare_spec e'' e) as [Heq|Hlt|Hgt]; [|reflexivity|lia].
  fold (Pos.compare q m).
  destruct (Pos.compare_spec q m) as [?|?|Hgt]; try reflexivity.
  specialize (F2 Heq). lia.
Qed.

Local Close Scope Z_scope.

(** The floor [x * smin_ratio] of a non-negative float does not exceed
    [x]: rounding never takes the product above [x], also on subnormal
    numbers, on zeros and at infinity. *)
Lemma scaled_floor_le (x : float) :
  (0 <=? x) = true -> (x * (16 * eps) <=? x) = true.
Proof.
  intros H. rewrite leb_spec in *. rewrite mul_spec.
  change (Prim2SF (16 * eps)) with (S754_finite false 4503599627370496 (-100)).
  change (Prim2SF 0) with (S754_zero false) in H.
  pose proof (Prim2SF_valid x) as Hv.
  destruct (Prim2SF x) as [s|s| |s m e]; simpl in H; try discriminate.
  - destruct s; reflexivity.
  - destruct s; [discriminate | reflexivity].
  - destruct s; [discriminate|].
    unfold SF64mul, SFmul. simpl xorb.
    apply (scaled_round_le m e). exact Hv.
Qed.

End Rounding.

(** C6: with neither bound supplied, and [s[0]] the largest singular
    value (non-negative and no smaller than [s[-1]]), [tikh_svd] returns,
    as its regularization parameters, the [npoints] logarithmically
    spaced samples of [loglinspace] from [s[0]] down to a floor which is
    the larger of [s[-1]] and [s[0]*smin_ratio]: it is one of the two and
    is below neither.  [smin_ratio = 16*eps] is [2^-48], the floor does
    not exceed [s[0]], so the sweep descends, and its first sample is
    [s[0]]. *)
Theorem tikh_svd_default_sweep (log10 pow10 : float -> float) (U : matrix)
  (s d : list float) (npoints : nat) (s0 s_last : float) :
  getitem s 0 = Ok s0 -> getitem s (-1) = Ok s_last ->
  (0 <=? s0) = true -> (s_last <=? s0) = true ->
  length d = nrows U -> (length s <= ncols U)%nat ->
  exists rhos etas alphas floor,
    tikh_svd log10 pow10 U s d npoints None None = Ok (rhos, etas, alphas)
    /\ alphas = loglinspace log10 pow10 s0 floor npoints
    /\ length alphas = npoints
    /\ (floor = s_last \/ floor = s0 * (16 * eps))
    /\ (s_last <=? floor) = true
    /\ (s0 * (16 * eps) <=? floor) = true
    /\ 16 * eps = 0x1p-48
    /\ (floor <=? s0) = true
    /\ (npoints <> 0%nat -> getitem alphas 0 = Ok s0).
Proof.
  intros H0 Hl Hpos Hle Hd Hs.
  pose proof (scaled_floor_le s0 Hpos) as Hfloor.
  pose proof (max2_bounded _ _ _ Hle Hfloor) as Hstop.
  pose proof (tikh_svd_bounds_default s s0 s_last H0 Hl) as Hb.
  rewrite (sorted_reverse_kept _ _ Hstop) in Hb.
  destruct (tikh_svd_returns log10 pow10 U s d npoints None None _ _ Hb Hd Hs)
    as (rhos & etas & E).
  destruct (max2_is_larger s_last (s0 * (16 * eps)))
    as (Hcase & Hfst & Hsnd).
  { apply (leb_not_nan_l _ _ Hle). }
  { apply (leb_not_nan_l _ _ Hfloor). }
  exists rhos, etas, (loglinspace log10 pow10 s0
                        (max2 s_last (s0 * (16 * eps))) npoints),
         (max2 s_last (s0 * (16 * eps))).
  repeat split; try assumption.
  - apply length_loglinspace.
  - destruct npoints as [|n]; [congruence|]. intros _. apply hd_loglinspace.
Qed.

(** With the singular values [1, 0] the floor is [2^-48], not the zero
    [s[-1]]: the sweep of three samples runs from [1] down to [2^-48]. *)
Lemma tikh_svd_default_sweep_witness :
  exists rhos etas alphas,
    tikh_svd id_float id_float I2 [1; 0] [1; 1] 3 None None
    = Ok (rhos, etas, alphas)
    /\ alphas = loglinspace id_float id_float 1 0x1p-48 3
    /\ length alphas = 3%nat
    /\ getitem alphas 0 = Ok 1
    /\ getitem alphas (-1) = Ok 0x1p-48.
Proof.
  destruct (tikh_svd_default_sweep id_float id_float I2 [1; 0] [1; 1] 3 1 0)
    as (rhos & etas & alphas & floor & E & Ea & Hlen & Hcase & _ & Hge & _
        & _ & Hhd); try reflexivity.
  exists rhos, etas, alphas.
  destruct Hcase as [-> | ->]; [vm_compute in Hge; discriminate|].
  split; [exact E|]. split; [exact Ea|]. split; [exact Hlen|].
  split; [apply Hhd; discriminate|].
  rewrite Ea. reflexivity.
Defined.

(** C9: with both bounds supplied and nonzero (and neither a NaN),
    [tikh_svd] and [tikh_gsvd] sweep from the larger bound [hi] down to
    the smaller one [lo], whichever of the two was passed as [alpha_min]:
    whatever either returns has [loglinspace hi lo npoints] as its
    regularization parameters and three vectors of [npoints] entries;
    and both do return on well-shaped factors. *)
Theorem explicit_bounds_are_reordered (log10 pow10 : float -> float)
  (matrix_rank : matrix -> option nat) (inv : matrix -> option matrix)
  (U : matrix) (s d : list float) (U' X LAM MU G L : matrix)
  (npoints : nat) (alpha_min alpha_max : float) :
  truthy (Some alpha_min) = true -> truthy (Some alpha_max) = true ->
  is_nan alpha_min = false -> is_nan alpha_max = false ->
  exists hi lo,
    ((hi, lo) = (alpha_max, alpha_min) \/ (hi, lo) = (alpha_min, alpha_max))
    /\ (lo <=? hi) = true
    /\ (forall rhos etas alphas,
          tikh_svd log10 pow10 U s d npoints (Some alpha_min) (Some alpha_max)
          = Ok (rhos, etas, alphas) ->
          alphas = loglinspace log10 pow10 hi lo npoints
          /\ length rhos = npoints /\ length etas = npoints
          /\ length alphas = npoints)
    /\ (forall rhos etas alphas,
          tikh_gsvd log10 pow10 matrix_rank inv U' X LAM MU d G L npoints
                    (Some alpha_min) (Some alpha_max)
          = Ok (rhos, etas, alphas) ->
          alphas = loglinspace log10 pow10 hi lo npoints
          /\ length rhos = npoints /\ length etas = npoints
          /\ length alphas = npoints)
    /\ (length d = nrows U -> (length s <= ncols U)%nat ->
        returns (tikh_svd log10 pow10 U s d npoints
                          (Some alpha_min) (Some alpha_max)))
    /\ (forall p Xi,
          (ncols G <= nrows G)%nat -> matrix_rank L = Some p ->
          inv X = Some Xi -> nrows Xi = ncols G -> ncols Xi = ncols G ->
          ncols LAM = ncols G -> ncols MU = ncols G ->
          nrows U' = length d -> length d = nrows G ->
          (ncols G <= ncols U')%nat -> ncols L = ncols G ->
          returns (tikh_gsvd log10 pow10 matrix_rank inv U' X LAM MU d G L
                             npoints (Some alpha_min) (Some alpha_max))).
Proof.
  intros Tmin Tmax Nmin Nmax.
  destruct (sorted_reverse_ordered alpha_max alpha_min Nmax Nmin)
    as [Hperm Hle].
  destruct (sorted_reverse alpha_max alpha_min) as [hi lo] eqn:E.
  simpl in Hle. exists hi, lo.
  split; [destruct Hperm as [->| ->]; auto|]. split; [assumption|].
  split; [|split; [|split]].
  - intros rhos etas alphas H.
    apply tikh_svd_shape in H.
    destruct H as (start & stop & Hb & -> & Lr & Le & La).
    rewrite (tikh_svd_bounds_explicit s _ _ Tmin Tmax), E in Hb.
    injection Hb as <- <-. auto.
  - intros rhos etas alphas H.
    apply tikh_gsvd_shape in H.
    destruct H as (gammas & p & start & stop & Hb & -> & Lr & Le & La).
    rewrite (tikh_gsvd_bounds_explicit gammas _ _ p _ _ Tmin Tmax), E in Hb.
    injection Hb as <- <-. auto.
  - intros Hd Hs.
    destruct (tikh_svd_returns log10 pow10 U s d npoints
                (Some alpha_min) (Some alpha_max) hi lo)
      as (rhos & etas & H); try assumption.
    + now rewrite (tikh_svd_bounds_explicit s _ _ Tmin Tmax), E.
    + eexists; exact H.
  - intros p Xi Hmn Hrank Hinv HXr HXc HLAM HMU HU Hd HUc HL.
    apply (tikh_gsvd_returns log10 pow10 matrix_rank inv U' X LAM MU d G L
             npoints (Some alpha_min) (Some alpha_max) p Xi); try assumption.
    intros gammas _.
    rewrite (tikh_gsvd_bounds_explicit gammas _ _ p _ _ Tmin Tmax). eauto.
Qed.

(** Passing [alpha_min = 4] and [alpha_max = 1] sweeps from [4] down to
    [1]. *)
Lemma explicit_bounds_are_reordered_witness :
  exists hi lo,
    ((hi, lo) = (1, 4) \/ (hi, lo) = (4, 1))
    /\ (lo <=? hi) = true
    /\ (forall rhos etas alphas,
          tikh_svd id_float id_float I2 [2; 1] [1; 1] 3 (Some 4) (Some 1)
          = Ok (rhos, etas, alphas) ->
          alphas = loglinspace id_float id_float hi lo 3
          /\ length rhos = 3%nat /\ length etas = 3%nat
          /\ length alphas = 3%nat)
    /\ (forall rhos etas alphas,
          tikh_gsvd id_float id_float rank_identity inv_identity
                    I2 I2 I2 I2 [1; 1] I2 I2 3 (Some 4) (Some 1)
          = Ok (rhos, etas, alphas) ->
          alphas = loglinspace id_float id_float hi lo 3
          /\ length rhos = 3%nat /\ length etas = 3%nat
          /\ length alphas = 3%nat)
    /\ (length [1; 1] = nrows I2 -> (length [2; 1] <= ncols I2)%nat ->
        returns (tikh_svd id_float id_float I2 [2; 1] [1; 1] 3
                          (Some 4) (Some 1)))
    /\ (forall p Xi,
          (ncols I2 <= nrows I2)%nat -> rank_identity I2 = Some p ->
          inv_identity I2 = Some Xi -> nrows Xi = ncols I2 ->
          ncols Xi = ncols I2 ->
          ncols I2 = ncols I2 -> ncols I2 = ncols I2 ->
          nrows I2 = length [1; 1] -> length [1; 1] = nrows I2 ->
          (ncols I2 <= ncols I2)%nat -> ncols I2 = ncols I2 ->
          returns (tikh_gsvd id_float id_float rank_identity inv_identity
                             I2 I2 I2 I2 [1; 1] I2 I2 3 (Some 4) (Some 1))).
Proof.
  apply (explicit_bounds_are_reordered id_float id_float rank_identity
           inv_identity I2 [2; 1] [1; 1] I2 I2 I2 I2 I2 I2 3 4 1);
    reflexivity.
Defined.

(** * A zero bound is a missing bound *)

Lemma truthy_zero (z : float) : (z =? 0) = true -> truthy (Some z) = false.
Proof. intros H. unfold truthy. now rewrite H. Qed.

Lemma tikh_gsvd_default_bounds_zero (gammas : list float) (m n p : nat)
  (z : float) (other : option float) :
  (z =? 0) = true ->
  tikh_gsvd_default_bounds gammas m n p (Some z) other
  = tikh_gsvd_default_bounds gammas m n p None other
  /\ tikh_gsvd_default_bounds gammas m n p other (Some z)
     = tikh_gsvd_default_bounds gammas m n p other None.
Proof.
  intros H. unfold tikh_gsvd_default_bounds.
  split; destruct (m <=? n)%nat; now rewrite !(or_else_zero z _ H).
Qed.

Lemma tikh_gsvd_bounds_zero (gammas : list float) (m n p : nat)
  (z : float) (other : option float) :
  (z =? 0) = true ->
  tikh_gsvd_bounds gammas m n p (Some z) other
  = tikh_gsvd_bounds gammas m n p None other
  /\ tikh_gsvd_bounds gammas m n p other (Some z)
     = tikh_gsvd_bounds gammas m n p other None.
Proof.
  intros H. unfold tikh_gsvd_bounds.
  destruct (tikh_gsvd_default_bounds_zero gammas m n p z other H) as [E1 E2].
  rewrite (truthy_zero z H).
  split; destruct other as [v|]; simpl; rewrite ?andb_false_r;
    now rewrite ?E1, ?E2.
Qed.

Lemma tikh_gsvd_bounds_fallback (gammas : list float) (m n p : nat)
  (alpha_min alpha_max : option float) :
  truthy alpha_min && truthy alpha_max = false ->
  tikh_gsvd_bounds gammas m n p alpha_min alpha_max
  = ('(start, stop) <- tikh_gsvd_default_bounds gammas m n p
                         alpha_min alpha_max ;;
     Ok (sorted_reverse start stop)).
Proof.
  intros H. unfold tikh_gsvd_bounds.
  destruct alpha_min as [lo|], alpha_max as [hi|]; try reflexivity.
  now rewrite H.
Qed.

(** C10: a zero ([0.0] or [-0.0]) passed for an optional regularization
    parameter acts as if the parameter were omitted, in [tikh_svd], in
    [tikh_gsvd] and as [alpha_init] of the two MDF functions; and
    [tikh_gsvd] uses its bounds as given only when both are supplied and
    nonzero, deriving them from the generalized singular values (each bound
    falling back on its own) otherwise. *)
Theorem zero_alpha_is_omitted (log10 pow10 : float -> float)
  (matrix_rank : matrix -> option nat) (inv : matrix -> option matrix)
  (fuel : nat) (U : matrix) (s d : list float) (U' X LAM MU G L : matrix)
  (npoints : nat) (other : option float) (tol : float) (maxiter : Z)
  (gammas : list float) (m n p : nat) (z : float) :
  (z =? 0) = true ->
  tikh_svd log10 pow10 U s d npoints (Some z) other
  = tikh_svd log10 pow10 U s d npoints None other
  /\ tikh_svd log10 pow10 U s d npoints other (Some z)
     = tikh_svd log10 pow10 U s d npoints other None
  /\ tikh_gsvd log10 pow10 matrix_rank inv U' X LAM MU d G L npoints
               (Some z) other
     = tikh_gsvd log10 pow10 matrix_rank inv U' X LAM MU d G L npoints
                 None other
  /\ tikh_gsvd log10 pow10 matrix_rank inv U' X LAM MU d G L npoints
               other (Some z)
     = tikh_gsvd log10 pow10 matrix_rank inv U' X LAM MU d G L npoints
                 other None
  /\ corner_mdf_svd log10 pow10 fuel U s d (Some z) tol maxiter
     = corner_mdf_svd log10 pow10 fuel U s d None tol maxiter
  /\ corner_mdf_gsvd log10 pow10 matrix_rank inv fuel U' X LAM MU d G L
                     (Some z) tol maxiter
     = corner_mdf_gsvd log10 pow10 matrix_rank inv fuel U' X LAM MU d G L
                       None tol maxiter
  /\ (forall lo hi,
        truthy (Some lo) && truthy (Some hi) = true ->
        tikh_gsvd_bounds gammas m n p (Some lo) (Some hi)
        = Ok (sorted_reverse hi lo))
  /\ (forall alpha_min alpha_max,
        truthy alpha_min && truthy alpha_max = false ->
        tikh_gsvd_bounds gammas m n p alpha_min alpha_max
        = ('(start, stop) <- tikh_gsvd_default_bounds gammas m n p
                               alpha_min alpha_max ;;
           Ok (sorted_reverse start stop)))
  /\ tikh_gsvd_default_bounds gammas m n p (Some z) other
     = tikh_gsvd_default_bounds gammas m n p None other
  /\ tikh_gsvd_default_bounds gammas m n p other (Some z)
     = tikh_gsvd_default_bounds gammas m n p other None.
Proof.
  intros H.
  split; [|split; [|split; [|split; [|split; [|split; [|split; [|split]]]]]]].
  - unfold tikh_svd, tikh_svd_bounds. now rewrite (or_else_zero z _ H).
  - unfold tikh_svd, tikh_svd_bounds. now rewrite (or_else_zero z _ H).
  - unfold tikh_gsvd.
    destruct (lapack (matrix_rank L)) as [r|]; [simpl|reflexivity].
    destruct (dot (transpose LAM) LAM) as [LL|]; [simpl|reflexivity].
    destruct (dot (transpose MU) MU) as [MM|]; [simpl|reflexivity].
    destruct (broadcast _ _ _) as [g|]; [simpl|reflexivity].
    now rewrite (proj1 (tikh_gsvd_bounds_zero g (nrows G) (ncols G) r z other H)).
  - unfold tikh_gsvd.
    destruct (lapack (matrix_rank L)) as [r|]; [simpl|reflexivity].
    destruct (dot (transpose LAM) LAM) as [LL|]; [simpl|reflexivity].
    destruct (dot (transpose MU) MU) as [MM|]; [simpl|reflexivity].
    destruct (broadcast _ _ _) as [g|]; [simpl|reflexivity].
    now rewrite (proj2 (tikh_gsvd_bounds_zero g (nrows G) (ncols G) r z other H)).
  - unfold corner_mdf_svd, corner_mdf, mdf_origin.
    now rewrite (truthy_zero z H).
  - unfold corner_mdf_gsvd, corner_mdf, mdf_origin.
    now rewrite (truthy_zero z H).
  - intros lo hi T. apply andb_prop in T. destruct T as [Tlo Thi].
    now apply tikh_gsvd_bounds_explicit.
  - apply tikh_gsvd_bounds_fallback.
  - apply (tikh_gsvd_default_bounds_zero gammas m n p z other H).
Qed.

(** The negative zero is one such value. *)
Lemma zero_alpha_is_omitted_witness :
  tikh_svd id_float id_float I2 [2; 1] [1; 1] 3 (Some (-0)) None
  = tikh_svd id_float id_float I2 [2; 1] [1; 1] 3 None None
  /\ corner_mdf_svd id_float id_float 4 I2 [2; 1] [1; 1] (Some (-0)) 0x1p-53 5
     = corner_mdf_svd id_float id_float 4 I2 [2; 1] [1; 1] None 0x1p-53 5.
Proof.
  pose proof (zero_alpha_is_omitted id_float id_float rank_identity
                inv_identity 4 I2 [2; 1] [1; 1] I2 I2 I2 I2 I2 I2 3 None
                0x1p-53 5 [1; 1] 2 2 2 (-0) eq_refl) as H.
  split; [exact (proj1 H) | exact (proj1 (proj2 (proj2 (proj2 (proj2 H)))))].
Defined.

(** * The filter of [tikh_gsvd] *)

(** Whenever [lambda] and [mu] both vanish, [gamma = lambda/mu] is NaN,
    so the first test of the filter takes the column: the branch that
    would zero it is never reached. *)
Lemma filter_coefficient_null_column (lams mus gammas alphas : list float)
  (ireg igam : nat) (lam mu : float) :
  getitem gammas (Z.of_nat igam) = Ok (lam / mu) ->
  (lam =? 0) = true -> (mu =? 0) = true ->
  filter_coefficient lams mus gammas alphas ireg igam = Ok 1.
Proof.
  intros Hg Hl Hm. unfold filter_coefficient. rewrite Hg. simpl.
  unfold isnan. rewrite (zero_div_zero lam mu Hl Hm).
  now rewrite orb_true_r.
Qed.

(** C2, evaluated: for [LAM] with column norms [1, 0, 1] and [MU] with
    column norms [0, 0, 1], the generalized singular values are
    [inf, nan, 1], and the filter of every regularization parameter
    [alpha] is [1, 1, 1/(1 + alpha^2)]: the column on which [lambda] and
    [mu] both vanish gets the coefficient [1], not [0]. *)
Theorem null_column_filter_is_one :
  exists LL MM gammas,
    dot (transpose (of_rows 3 3 [[1; 0; 0]; [0; 0; 0]; [0; 0; 1]]))
        (of_rows 3 3 [[1; 0; 0]; [0; 0; 0]; [0; 0; 1]]) = Ok LL
    /\ map sqrt (diag_of LL 0) = [1; 0; 1]
    /\ dot (transpose (of_rows 3 3 [[0; 0; 0]; [0; 0; 0]; [0; 0; 1]]))
           (of_rows 3 3 [[0; 0; 0]; [0; 0; 0]; [0; 0; 1]]) = Ok MM
    /\ map sqrt (diag_of MM 0) = [0; 0; 1]
    /\ broadcast div [1; 0; 1] [0; 0; 1] = Ok gammas
    /\ gammas = [infinity; nan; 1]
    /\ forall alpha,
         series_filter [1; 0; 1] [0; 0; 1] gammas [alpha] 0 3 0
         = Ok [1; 1; 1 / (1 + alpha * alpha)].
Proof.
  do 3 eexists.
  split; [reflexivity|]. split; [reflexivity|].
  split; [reflexivity|]. split; [reflexivity|].
  split; [reflexivity|]. split; [reflexivity|].
  intros alpha. reflexivity.
Qed.

(** * [corner_maxcurv] *)

Lemma sub_self (v : float) : v - v = 0 \/ v - v = nan.
Proof.
  rewrite <- (SF2Prim_Prim2SF (v - v)). rewrite sub_spec.
  destruct (Prim2SF v) as [s|s| |s m e]; simpl.
  - left. destruct s; reflexivity.
  - right. destruct s; reflexivity.
  - right. reflexivity.
  - left. unfold SF64sub, SFsub. rewrite Z.min_id.
    unfold shl_align. rewrite Z.sub_diag. simpl.
    destruct s; reflexivity.
Qed.

Lemma is_nan_abs (x : float) : is_nan (abs x) = is_nan x.
Proof.
  apply eq_true_iff_eq. rewrite !is_nan_spec, abs_spec.
  destruct (Prim2SF x); simpl; split; congruence.
Qed.

Lemma length_slice_interior {A : Type} (l : list A) :
  length (slice None (Some (-2)%Z) l) = (length l - 2)%nat
  /\ length (slice (Some 1%Z) (Some (-1)%Z) l) = (length l - 2)%nat
  /\ length (slice (Some 2%Z) None l) = (length l - 2)%nat.
Proof.
  unfold slice, clamp.
  change (-2 <? 0)%Z with true. change (-1 <? 0)%Z with true.
  change (1 <? 0)%Z with false. change (2 <? 0)%Z with false.
  cbv beta iota.
  rewrite !length_firstn, !length_skipn.
  repeat split; lia.
Qed.

Lemma broadcast_returns (op : float -> float -> float) (x y : list float)
  (k : nat) :
  length x = k -> length y = k ->
  exists z, broadcast op x y = Ok z /\ length z = k.
Proof.
  intros Hx Hy. rewrite broadcast_same by congruence.
  eexists; split; [reflexivity|]. rewrite length_zip; congruence.
Qed.

Section CornerMaxcurv.

Variable ln : float -> float.

Lemma side_lengths_returns (xa ya xb yb : list float) (k : nat) :
  length xa = k -> length ya = k -> length xb = k -> length yb = k ->
  exists r, side_lengths xa ya xb yb = Ok r /\ length r = k.
Proof.
  intros Hxa Hya Hxb Hyb. unfold side_lengths.
  destruct (broadcast_returns sub xa xb k Hxa Hxb) as (dx & -> & Ldx).
  destruct (broadcast_returns sub ya yb k Hya Hyb) as (dy & -> & Ldy).
  simpl.
  destruct (broadcast_returns add (map sq dx) (map sq dy) k)
    as (r & -> & Lr); [now rewrite length_map..|].
  simpl. eexists; split; [reflexivity|]. now rewrite length_map.
Qed.

(** On same-length [rhos] and [etas] the curvature is computed for the
    [len - 2] interior points. *)
Lemma interior_curvature_returns (rhos etas : list float) :
  length etas = length rhos ->
  exists curv, interior_curvature ln rhos etas = Ok curv
               /\ length curv = (length rhos - 2)%nat.
Proof.
  intros Hlen. unfold interior_curvature.
  set (k := (length rhos - 2)%nat).
  destruct (length_slice_interior (map ln rhos)) as (X1 & X2 & X3).
  destruct (length_slice_interior (map ln etas)) as (Y1 & Y2 & Y3).
  rewrite length_map in X1, X2, X3, Y1, Y2, Y3. rewrite Hlen in Y1, Y2, Y3.
  fold k in X1, X2, X3, Y1, Y2, Y3.
  destruct (side_lengths_returns _ _ _ _ k X1 Y1 X2 Y2) as (a & -> & La).
  destruct (side_lengths_returns _ _ _ _ k X2 Y2 X3 Y3) as (b & -> & Lb).
  destruct (side_lengths_returns _ _ _ _ k X3 Y3 X1 Y1) as (c & -> & Lc).
  simpl.
  destruct (broadcast_returns add a b k La Lb) as (ab & -> & Lab). simpl.
  destruct (broadcast_returns add ab c k Lab Lc) as (abc & -> & Labc). simpl.
  set (s := map (fun v => v / 2) abc).
  assert (Ls : length s = k) by (unfold s; now rewrite length_map).
  destruct (broadcast_returns sub s a k Ls La) as (sa & -> & Lsa). simpl.
  destruct (broadcast_returns mul s sa k Ls Lsa) as (t1 & -> & Lt1). simpl.
  destruct (broadcast_returns sub s b k Ls Lb) as (sb & -> & Lsb). simpl.
  destruct (broadcast_returns mul t1 sb k Lt1 Lsb) as (t2 & -> & Lt2). simpl.
  destruct (broadcast_returns sub s c k Ls Lc) as (sc & -> & Lsc). simpl.
  destruct (broadcast_returns mul t2 sc k Lt2 Lsc) as (t3 & -> & Lt3). simpl.
  destruct (broadcast_returns mul a b k La Lb) as (ab' & -> & Lab'). simpl.
  destruct (broadcast_returns mul ab' c k Lab' Lc) as (abc' & -> & Labc').
  simpl.
  destruct (broadcast_returns div abc' (map (fun v => 4 * v) (map sqrt t3)) k)
    as (radii & -> & Lradii); [assumption | now rewrite !length_map |].
  simpl. eexists; split; [reflexivity|]. now rewrite length_map.
Qed.

Lemma slice_kappa (curv : list float) :
  slice (Some 1%Z) (Some (-1)%Z) (0 :: curv ++ [0]) = curv.
Proof.
  unfold slice, clamp. simpl length. rewrite length_app. simpl length.
  replace (Z.of_nat (S (length curv + 1))) with (Z.of_nat (length curv) + 2)%Z
    by lia.
  destruct (Z.ltb_spec 1 0); [lia|].
  destruct (Z.ltb_spec (-1) 0); [|lia].
  replace (Z.to_nat (Z.min 1 (Z.of_nat (length curv) + 2))) with 1%nat by lia.
  replace (Z.to_nat _) with (length curv) by lia.
  simpl. rewrite firstn_app, firstn_all, Nat.sub_diag. simpl.
  apply app_nil_r.
Qed.

Lemma argscan_bound (better : float -> float -> bool) (l : list float)
  (best : float) (ibest i : nat) :
  (ibest < i)%nat -> (argscan better best ibest i l < i + length l)%nat.
Proof.
  revert best ibest i. induction l as [|x t IH]; intros best ibest i H; simpl.
  - lia.
  - destruct (isnan best); [lia|].
    destruct (better x best).
    + specialize (IH x i (S i)). lia.
    + specialize (IH best ibest (S i)). lia.
Qed.

Lemma nanargmax_cases (v : list float) :
  (forallb isnan v = true /\ nanargmax v = Raise ValueError)
  \/ (forallb isnan v = false
      /\ exists i, nanargmax v = Ok i /\ (i < length v)%nat).
Proof.
  unfold nanargmax. destruct (forallb isnan v) eqn:E; [now left|right].
  split; [reflexivity|].
  destruct v as [|x t]; [discriminate|]. simpl.
  eexists; split; [reflexivity|].
  pose proof (argscan_bound (fun v m => negb (v <=? m))
                (map (fun x => if isnan x then neg_infinity else x) t)
                (if isnan x then neg_infinity else x) 0 1) as B.
  rewrite length_map in B. lia.
Qed.

Lemma forallb_isnan_abs (v : list float) :
  forallb isnan (map abs v) = forallb isnan v.
Proof.
  induction v as [|x t IH]; simpl; [reflexivity|].
  unfold isnan at 1 3. now rewrite is_nan_abs, IH.
Qed.

(** What [corner_maxcurv] does on same-length inputs: it raises
    [ValueError] when every interior curvature is NaN (always so when
    there is no interior point) and otherwise returns the samples at the
    position [i] that [nanargmax] found within the interior curvatures. *)
Lemma corner_maxcurv_cases (rhos etas alphas : list float) :
  length etas = length rhos -> length alphas = length rhos ->
  exists curv,
    interior_curvature ln rhos etas = Ok curv
    /\ length curv = (length rhos - 2)%nat
    /\ ((forallb isnan curv = true
         /\ corner_maxcurv ln rhos etas alphas = Raise ValueError)
        \/ (forallb isnan curv = false
            /\ exists i rho eta alpha,
                 nanargmax (map abs curv) = Ok i
                 /\ (i < length curv)%nat
                 /\ getitem rhos (Z.of_nat i) = Ok rho
                 /\ getitem etas (Z.of_nat i) = Ok eta
                 /\ getitem alphas (Z.of_nat i) = Ok alpha
                 /\ corner_maxcurv ln rhos etas alphas
                    = Ok (rho, eta, alpha))).
Proof.
  intros He Ha.
  destruct (interior_curvature_returns rhos etas He) as (curv & Hc & Lc).
  exists curv. split; [assumption|]. split; [assumption|].
  unfold corner_maxcurv. rewrite Hc. simpl. rewrite slice_kappa.
  destruct (nanargmax_cases (map abs curv)) as [[N E]|[N (i & E & Hi)]];
    rewrite forallb_isnan_abs in N.
  - left. now rewrite E.
  - rewrite length_map in Hi.
    right. split; [assumption|]. rewrite E. simpl.
    destruct (getitem_nat alphas i) as [alpha Ea]; [lia|].
    destruct (getitem_nat rhos i) as [rho Er]; [lia|].
    destruct (getitem_nat etas i) as [eta Ee]; [lia|].
    rewrite Ea, Er, Ee. simpl.
    exists i, rho, eta, alpha. repeat split; assumption.
Qed.

End CornerMaxcurv.

(** C1, evaluated on every input of exactly three samples:
    [corner_maxcurv] returns the first sample (index 0), or raises
    [ValueError] when the single curvature is NaN; it does not return the
    middle sample.  The index found among the interior curvatures
    [kappa[1:-1]] is used as an index into the full arrays. *)
Theorem corner_maxcurv_three_samples (ln : float -> float)
  (r0 r1 r2 e0 e1 e2 a0 a1 a2 : float) :
  corner_maxcurv ln [r0; r1; r2] [e0; e1; e2] [a0; a1; a2] = Ok (r0, e0, a0)
  \/ corner_maxcurv ln [r0; r1; r2] [e0; e1; e2] [a0; a1; a2]
     = Raise ValueError.
Proof.
  destruct (corner_maxcurv_cases ln [r0; r1; r2] [e0; e1; e2] [a0; a1; a2]
              eq_refl eq_refl)
    as (curv & _ & L
        & [[_ E]|[_ (i & rho & eta & alpha & _ & Hi & Hr & He & Ha & E)]]).
  - now right.
  - left. rewrite L in Hi. simpl in Hi. assert (i = 0%nat) by lia. subst i.
    cbv in Hr, He, Ha. congruence.
Qed.

(** C7, as stated, fails: three coincident samples are three samples, and
    the call raises the same [ValueError] as on too few samples, whatever
    the logarithm. *)
Lemma corner_maxcurv_coincident_samples_raise :
  exists rhos etas alphas,
    length rhos = 3%nat /\ length etas = 3%nat /\ length alphas = 3%nat
    /\ forall ln, corner_maxcurv ln rhos etas alphas = Raise ValueError.
Proof.
  exists [1; 1; 1], [1; 1; 1], [4; 2; 1].
  repeat split. intros ln.
  unfold corner_maxcurv, interior_curvature, side_lengths.
  simpl map. set (v := ln 1).
  unfold slice, clamp. simpl.
  destruct (sub_self v) as [E|E]; rewrite E; reflexivity.
Qed.

(** C7, amended: on same-length inputs [corner_maxcurv] raises
    [ValueError] (from [np.nanargmax]) exactly when every interior
    curvature is NaN, and returns a triple otherwise; with fewer than
    three samples there is no interior curvature, so it always raises. *)
Theorem corner_maxcurv_raises_iff_no_curvature (ln : float -> float)
  (rhos etas alphas : list float) :
  length etas = length rhos -> length alphas = length rhos ->
  ((length rhos < 3)%nat ->
   corner_maxcurv ln rhos etas alphas = Raise ValueError)
  /\ exists curv,
       interior_curvature ln rhos etas = Ok curv
       /\ length curv = (length rhos - 2)%nat
       /\ (forallb isnan curv = true ->
           corner_maxcurv ln rhos etas alphas = Raise ValueError)
       /\ (forallb isnan curv = false ->
           returns (corner_maxcurv ln rhos etas alphas)).
Proof.
  intros He Ha.
  destruct (corner_maxcurv_cases ln rhos etas alphas He Ha)
    as (curv & Hc & L & Hcases).
  split.
  - intros Hn.
    assert (curv = []) by (destruct curv; [reflexivity | simpl in L; lia]).
    subst curv.
    destruct Hcases as [[_ E]|[N _]]; [assumption | discriminate].
  - exists curv. repeat split; try assumption.
    + intros N. destruct Hcases as [[_ E]|[N' _]]; [assumption | congruence].
    + intros N.
      destruct Hcases as [[N' _]|[_ (i & rho & eta & alpha & H)]];
        [congruence|].
      exists (rho, eta, alpha). apply H.
Qed.

(** Four samples on which the curvature is defined. *)
Lemma corner_maxcurv_raises_iff_no_curvature_witness :
  ((length [1; 2; 4; 8] < 3)%nat ->
   corner_maxcurv id_float [1; 2; 4; 8] [8; 4; 3; 1] [4; 3; 2; 1]
   = Raise ValueError)
  /\ exists curv,
       interior_curvature id_float [1; 2; 4; 8] [8; 4; 3; 1] = Ok curv
       /\ length curv = (length [1; 2; 4; 8] - 2)%nat
       /\ (forallb isnan curv = true ->
           corner_maxcurv id_float [1; 2; 4; 8] [8; 4; 3; 1] [4; 3; 2; 1]
           = Raise ValueError)
       /\ (forallb isnan curv = false ->
           returns (corner_maxcurv id_float [1; 2; 4; 8] [8; 4; 3; 1]
                                   [4; 3; 2; 1])).
Proof.
  apply (corner_maxcurv_raises_iff_no_curvature id_float
           [1; 2; 4; 8] [8; 4; 3; 1] [4; 3; 2; 1]); reflexivity.
Defined.

(** * The MDF fixed-point loop *)

Section MdfLoop.

Variable f : float -> result float.
Variable tol : float.
Variable maxiter : Z.



End MdfLoop.





(** With a budget of at most one evaluation the [while] loop is not
    entered: the state after the first evaluation of [f] is handed
    over. *)
Lemma mdf_iterate_spent_budget (f : float -> result float)
  (alpha_init tol : float) (maxiter : Z) (fuel : nat) (a1 : float) :
  (maxiter <= 1)%Z -> f alpha_init = Ok a1 ->
  mdf_iterate fuel f alpha_init tol maxiter
  = Some (Ok (MdfState a1 (abs (a1 / alpha_init - 1)) 1 [alpha_init])).
Proof.
  intros Hm Hf. unfold mdf_iterate. rewrite Hf.
  destruct fuel; simpl;
    destruct (Z.ltb_spec 1 maxiter); try lia; now rewrite andb_false_r.
Qed.

(** [corner_mdf] with a budget [maxiter <= 0]: one fixed-point update is
    made all the same, and the result is evaluated at the updated
    [alpha]. *)
Lemma corner_mdf_overruns (log10 pow10 : float -> float) (sweep : sweep_fn)
  (nq : nat) (iq : Z) (alpha_init : option float) (tol : float)
  (maxiter : Z) (fuel : nat) (a b a0 a1 : float) :
  (maxiter <= 0)%Z ->
  mdf_origin log10 pow10 sweep nq iq alpha_init = Ok (a, b, a0) ->
  mdf_update log10 sweep a b a0 = Ok a1 ->
  exists st,
    mdf_iterate fuel (mdf_update log10 sweep a b) a0 tol maxiter
    = Some (Ok st)
    /\ evaluated st = [a0]
    /\ alpha_next st = a1
    /\ counter st = 1%Z
    /\ (maxiter < Z.of_nat (length (evaluated st)))%Z
    /\ corner_mdf log10 pow10 fuel sweep nq iq alpha_init tol maxiter
       = Some (mdf_final sweep a1).
Proof.
  intros Hm Ho Hf.
  pose proof (mdf_iterate_spent_budget (mdf_update log10 sweep a b) a0 tol
                maxiter fuel a1 ltac:(lia) Hf) as Hit.
  eexists; split; [exact Hit|]. cbn [evaluated alpha_next counter length].
  repeat split; try lia.
  unfold corner_mdf. now rewrite Ho, Hit.
Qed.

(** C8: a budget [maxiter <= 0] is overrun.  In [corner_mdf_svd] and in
    [corner_mdf_gsvd] the first evaluation of [f] is made, and [counter]
    set to 1, before the budget is looked at: whenever the origin and
    that evaluation return, whatever the tolerance, the loop hands over
    after exactly one fixed-point update, [alpha_next = f(alpha_init)],
    one more than [maxiter] allows, and the function returns what the
    final evaluation at the updated [alpha_next] yields. *)
Theorem mdf_zero_budget_still_updates (log10 pow10 : float -> float)
  (matrix_rank : matrix -> option nat) (inv : matrix -> option matrix)
  (U : matrix) (s d : list float) (U' X LAM MU G L : matrix)
  (alpha_init : option float) (tol : float) (maxiter : Z) (fuel : nat) :
  (maxiter <= 0)%Z ->
  (forall a b a0 a1,
     let sweep := tikh_svd log10 pow10 U s d in
     mdf_origin log10 pow10 sweep 3 1 alpha_init = Ok (a, b, a0) ->
     mdf_update log10 sweep a b a0 = Ok a1 ->
     exists st,
       mdf_iterate fuel (mdf_update log10 sweep a b) a0 tol maxiter
       = Some (Ok st)
       /\ evaluated st = [a0]
       /\ alpha_next st = a1
       /\ counter st = 1%Z
       /\ (maxiter < Z.of_nat (length (evaluated st)))%Z
       /\ corner_mdf_svd log10 pow10 fuel U s d alpha_init tol maxiter
          = Some (mdf_final sweep a1))
  /\ (forall a b a0 a1,
        let sweep :=
          tikh_gsvd log10 pow10 matrix_rank inv U' X LAM MU d G L in
        mdf_origin log10 pow10 sweep 9 4 alpha_init = Ok (a, b, a0) ->
        mdf_update log10 sweep a b a0 = Ok a1 ->
        exists st,
          mdf_iterate fuel (mdf_update log10 sweep a b) a0 tol maxiter
          = Some (Ok st)
          /\ evaluated st = [a0]
          /\ alpha_next st = a1
          /\ counter st = 1%Z
          /\ (maxiter < Z.of_nat (length (evaluated st)))%Z
          /\ corner_mdf_gsvd log10 pow10 matrix_rank inv fuel U' X LAM MU d
                             G L alpha_init tol maxiter
             = Some (mdf_final sweep a1)).
Proof.
  intros Hm. split; intros a b a0 a1 sweep Ho Hf.
  - exact (corner_mdf_overruns log10 pow10 sweep 3 1 alpha_init tol maxiter
             fuel a b a0 a1 Hm Ho Hf).
  - exact (corner_mdf_overruns log10 pow10 sweep 9 4 alpha_init tol maxiter
             fuel a b a0 a1 Hm Ho Hf).
Qed.

(** [corner_mdf_svd] on the singular values [2, 1] with [alpha_init = 1]
    and [maxiter = 0]: [f] is evaluated once, at [1], and the call
    returns the evaluation at [f(1)]. *)
Lemma mdf_zero_budget_still_updates_witness :
  let sweep := tikh_svd id_float id_float I2 [2; 1] [1; 1] in
  exists a b a1 st,
    mdf_origin id_float id_float sweep 3 1 (Some 1) = Ok (a, b, 1)
    /\ mdf_update id_float sweep a b 1 = Ok a1
    /\ mdf_iterate 0 (mdf_update id_float sweep a b) 1 0x1p-53 0
       = Some (Ok st)
    /\ evaluated st = [1]
    /\ alpha_next st = a1
    /\ counter st = 1%Z
    /\ corner_mdf_svd id_float id_float 0 I2 [2; 1] [1; 1] (Some 1)
                      0x1p-53 0
       = Some (mdf_final sweep a1)
    /\ mdf_final sweep a1 <> mdf_final sweep 1.
Proof.
  intros sweep.
  destruct (mdf_origin id_float id_float sweep 3 1 (Some 1))
    as [[[a b] a0]|e] eqn:Ho; [|vm_compute in Ho; discriminate].
  pose proof Ho as Hv. vm_compute in Hv. injection Hv as <- <- <-.
  destruct (mdf_update id_float sweep 0x1.28f5c28f5c28fp-2
              0x1.a3d70a3d70a3ep-4 1) as [a1|e] eqn:Hf;
    [|vm_compute in Hf; discriminate].
  destruct (mdf_zero_budget_still_updates id_float id_float rank_identity
              inv_identity I2 [2; 1] [1; 1] I2 I2 I2 I2 I2 I2 (Some 1)
              0x1p-53 0 0 ltac:(lia)) as [Hsvd _].
  destruct (Hsvd _ _ 1 a1 Ho Hf) as (st & Hit & He & Hn & Hc & _ & Hr).
  exists 0x1.28f5c28f5c28fp-2, 0x1.a3d70a3d70a3ep-4, a1, st.
  repeat split; try assumption.
  vm_compute in Hf. injection Hf as <-. vm_compute. discriminate.
Defined.

(** * [gsvd]: which errors it raises *)

Lemma raises_bind {A B : Type} (x : result A) (k : A -> result B) :
  (forall a, x = Ok a -> raises (k a)) -> raises (bind x k).
Proof.
  intros H. destruct x as [a|e]; simpl; [now apply H | now exists e].
Qed.

Lemma raises_bind_first {A B : Type} (x : result A) (k : A -> result B) :
  raises x -> raises (bind x k).
Proof. intros [e ->]. now exists e. Qed.

Lemma bind_quiet {A B : Type} (x : result A) (k : A -> result B) :
  x <> Raise MatrixColumnMismatch ->
  (forall a, x = Ok a -> k a <> Raise MatrixColumnMismatch) ->
  bind x k <> Raise MatrixColumnMismatch.
Proof.
  intros Hx Hk. destruct x as [a|e]; simpl; [now apply Hk|].
  intros [= ->]. now apply Hx.
Qed.

(** The NumPy layer never raises [MatrixColumnMismatch]. *)

Lemma dot_quiet (A B : matrix) : dot A B <> Raise MatrixColumnMismatch.
Proof. unfold dot. destruct (Nat.eqb _ _); discriminate. Qed.

Lemma take_cols_quiet (M : matrix) (j : list nat) :
  take_cols M j <> Raise MatrixColumnMismatch.
Proof. unfold take_cols. destruct (in_bounds _ _); discriminate. Qed.

Lemma take_rows_quiet (M : matrix) (i : list nat) :
  take_rows M i <> Raise MatrixColumnMismatch.
Proof. unfold take_rows. destruct (in_bounds _ _); discriminate. Qed.

Lemma set_cols_quiet (M : matrix) (j : list nat) (R : matrix) :
  set_cols M j R <> Raise MatrixColumnMismatch.
Proof.
  unfold set_cols. destruct (in_bounds _ _); [|discriminate].
  destruct (fits _ _ _); discriminate.
Qed.

Lemma set_rows_quiet (M : matrix) (i : list nat) (R : matrix) :
  set_rows M i R <> Raise MatrixColumnMismatch.
Proof.
  unfold set_rows. destruct (in_bounds _ _); [|discriminate].
  destruct (fits _ _ _); discriminate.
Qed.

Lemma set_block_quiet (M : matrix) (r0 r1 c0 c1 : nat) (R : matrix) :
  set_block M r0 r1 c0 c1 R <> Raise MatrixColumnMismatch.
Proof. unfold set_block. destruct (fits _ _ _); discriminate. Qed.

Lemma set_entry_quiet (M : matrix) (i j : nat) (v : float) :
  set_entry M i j v <> Raise MatrixColumnMismatch.
Proof. unfold set_entry. destruct (_ && _); discriminate. Qed.

Lemma row_at_quiet (M : matrix) (i : nat) :
  row_at M i <> Raise MatrixColumnMismatch.
Proof. unfold row_at. destruct (_ <? _)%nat; discriminate. Qed.

Lemma diagsvd_quiet (s : list float) (M N : nat) :
  diagsvd s M N <> Raise MatrixColumnMismatch.
Proof.
  unfold diagsvd.
  destruct (Nat.eqb _ M); [destruct (M <=? N)%nat; discriminate|].
  destruct (Nat.eqb _ N); [destruct (N <=? M)%nat; discriminate|].
  discriminate.
Qed.

Lemma lapack_quiet {A : Type} (o : option A) :
  lapack o <> Raise MatrixColumnMismatch.
Proof. destruct o; discriminate. Qed.

Lemma vstack_quiet (A B : matrix) : vstack A B <> Raise MatrixColumnMismatch.
Proof. unfold vstack. destruct (Nat.eqb _ _); discriminate. Qed.

Lemma zeros2_quiet (r c : Z) : zeros2 r c <> Raise MatrixColumnMismatch.
Proof. unfold zeros2. destruct (_ || _); discriminate. Qed.

Lemma broadcast2_quiet (op : float -> float -> float) (A B : matrix) :
  broadcast2 op A B <> Raise MatrixColumnMismatch.
Proof.
  unfold broadcast2. destruct (bdim _ _); [|discriminate].
  destruct (bdim _ _); discriminate.
Qed.

Create HintDb quiet.

#[local] Hint Resolve dot_quiet take_cols_quiet take_rows_quiet
  set_cols_quiet set_rows_quiet set_block_quiet set_entry_quiet row_at_quiet
  diagsvd_quiet lapack_quiet vstack_quiet zeros2_quiet broadcast2_quiet
  : quiet.

(** One step through a chain of calls none of which raises
    [MatrixColumnMismatch]. *)
Ltac quiet_step :=
  match goal with
  | |- Ok _ <> Raise _ => discriminate
  | |- Raise _ <> Raise MatrixColumnMismatch => discriminate
  | |- bind _ _ <> Raise _ =>
      apply bind_quiet; [solve [auto with quiet] | intros ? _]
  | |- bind _ _ <> Raise _ => apply bind_quiet; [ | intros ? _]
  | |- (if ?c then _ else _) <> Raise _ => destruct c
  | |- (match ?x with _ => _ end) <> Raise _ => destruct x
  | |- _ <> Raise _ => solve [auto with quiet]
  end.

Ltac quiet := repeat quiet_step.

Lemma diagp_quiet (Y X : matrix) (k : Z) :
  _diagp Y X k <> Raise MatrixColumnMismatch.
Proof. unfold _diagp. quiet. Qed.

Lemma csd_split_quiet (C : matrix) :
  csd_split C <> Raise MatrixColumnMismatch.
Proof. unfold csd_split. quiet. Qed.

#[local] Hint Resolve diagp_quiet csd_split_quiet : quiet.

Section GsvdErrors.

Variable svd : matrix -> option (matrix * list float * matrix).
Variable qr : matrix -> option (matrix * matrix).
Variable qr_economic : matrix -> option (matrix * matrix).

Lemma csd_middle_quiet (m n p q k : nat) (U V Z C S_ : matrix) :
  csd_middle svd qr m n p q k U V Z C S_ <> Raise MatrixColumnMismatch.
Proof. unfold csd_middle. quiet. Qed.

Lemma csd_wide_quiet (m n p : nat) (V Z C S_ : matrix) :
  csd_wide qr m n p V Z C S_ <> Raise MatrixColumnMismatch.
Proof. unfold csd_wide. quiet. Qed.

Hint Resolve csd_middle_quiet csd_wide_quiet : quiet.

Lemma csd_tall_quiet (Q1 Q2 : matrix) :
  csd_tall svd qr Q1 Q2 <> Raise MatrixColumnMismatch.
Proof. unfold csd_tall. quiet. Qed.

Hint Resolve csd_tall_quiet : quiet.

(** [_csd] raises [MatrixColumnMismatch] only on operands whose column
    counts differ. *)
Lemma csd_body_quiet (self : matrix -> matrix -> result csd_result)
  (Q1 Q2 : matrix) :
  ncols Q2 = ncols Q1 ->
  self Q2 Q1 <> Raise MatrixColumnMismatch ->
  csd_body svd qr self Q1 Q2 <> Raise MatrixColumnMismatch.
Proof.
  intros Hc Hself. unfold csd_body. rewrite Hc, Nat.eqb_refl. simpl.
  destruct (nrows Q1 <? nrows Q2)%nat; [|auto with quiet].
  apply bind_quiet; [assumption|]. intros r _. quiet.
Qed.

Lemma csd_quiet (Q1 Q2 : matrix) :
  ncols Q2 = ncols Q1 -> _csd svd qr Q1 Q2 <> Raise MatrixColumnMismatch.
Proof.
  intros Hc. unfold _csd. apply csd_body_quiet; [assumption|].
  apply csd_body_quiet; [congruence | discriminate].
Qed.

Lemma economy_quiet (full_matrices : bool) (A : matrix) (m p : nat) :
  economy qr_economic full_matrices A m p <> Raise MatrixColumnMismatch.
Proof. unfold economy. quiet. Qed.

End GsvdErrors.

(** C4: [gsvd] raises [MatrixColumnMismatch] exactly when [A] and [B]
    have different column counts.  This holds whatever the LAPACK drivers
    do, in particular with drivers that always fail: on a mismatch the
    exception is raised before any factorization is attempted; and when
    the column counts match, no later step (the nested check of [_csd]
    included) raises it. *)
Theorem gsvd_column_mismatch
  (svd : matrix -> option (matrix * list float * matrix))
  (qr qr_economic : matrix -> option (matrix * matrix))
  (A B : matrix) (full_matrices compute_all : bool) :
  (gsvd svd qr qr_economic A B full_matrices compute_all
   = Raise MatrixColumnMismatch <-> ncols A <> ncols B)
  /\ (gsvd no_svd no_qr no_qr A B full_matrices compute_all
      = Raise MatrixColumnMismatch <-> ncols A <> ncols B).
Proof.
  assert (H : forall svd' qr' qre',
             gsvd svd' qr' qre' A B full_matrices compute_all
             = Raise MatrixColumnMismatch <-> ncols A <> ncols B).
  { intros svd' qr' qre'. unfold gsvd.
    destruct (Nat.eqb_spec (ncols B) (ncols A)) as [E|E]; simpl.
    - split; [|congruence]. intros H. exfalso. revert H.
      apply bind_quiet; [apply economy_quiet|]. intros [[QA A'] m] _.
      apply bind_quiet; [apply economy_quiet|]. intros [[QB B'] n] _.
      apply bind_quiet; [apply vstack_quiet|]. intros AB _.
      apply bind_quiet; [apply lapack_quiet|]. intros [Q R] _.
      apply bind_quiet; [now apply csd_quiet|].
      intros [[[[U V] Z] C] S_] _.
      destruct compute_all; quiet.
    - split; [congruence | reflexivity]. }
  split; apply H.
Qed.

(** One step through a chain of calls: either the call raises, or the
    chain goes on with what it returned. *)
Ltac raises_step :=
  apply raises_bind; intros ? _;
  repeat match goal with
         | |- raises (match ?x with _ => _ end) => is_var x; destruct x
         end.

Section GsvdRaises.

Variable svd : matrix -> option (matrix * list float * matrix).
Variable qr : matrix -> option (matrix * matrix).
Variable qr_economic : matrix -> option (matrix * matrix).

(** Lines 225-237 with [n <= 1]: the row index [i = 1] is out of range
    for the [n] rows of [S], and a row of [S] could not be indexed by
    [[:, j]] anyway. *)
Lemma csd_wide_raises (m n p : nat) (V Z C S_ : matrix) :
  (n <= 1)%nat -> raises (csd_wide qr m n p V Z C S_).
Proof.
  intros Hn. unfold csd_wide.
  do 5 raises_step.
  destruct (Nat.ltb_spec 1 n); [lia|].
  do 2 raises_step. now exists IndexError.
Qed.

(** [_csd] on a wide first operand ([m < p]) over a second operand of at
    most one row. *)
Lemma csd_tall_raises (Q1 Q2 : matrix) :
  (nrows Q2 <= 1)%nat -> (nrows Q1 < ncols Q1)%nat ->
  raises (csd_tall svd qr Q1 Q2).
Proof.
  intros Hn Hmp. unfold csd_tall.
  do 14 raises_step.
  apply raises_bind_first.
  destruct (Nat.ltb_spec (nrows Q1) (ncols Q1)); [|lia].
  now apply csd_wide_raises.
Qed.

Lemma csd_raises (Q1 Q2 : matrix) :
  ncols Q2 = ncols Q1 -> nrows Q2 = 1%nat ->
  (1 <= nrows Q1 < ncols Q1)%nat ->
  raises (_csd svd qr Q1 Q2).
Proof.
  intros Hc Hn Hm. unfold _csd, csd_body at 1.
  rewrite Hc, Nat.eqb_refl. simpl negb. cbv iota.
  destruct (Nat.ltb_spec (nrows Q1) (nrows Q2)); [lia|].
  apply csd_tall_raises; lia.
Qed.

End GsvdRaises.

Lemma vstack_shape (A B AB : matrix) :
  vstack A B = Ok AB ->
  nrows AB = (nrows A + nrows B)%nat /\ ncols AB = ncols A.
Proof.
  unfold vstack. destruct (Nat.eqb _ _); [|discriminate].
  intros [= <-]. split; reflexivity.
Qed.

(** C3, on every pair whose second operand is a single row and whose
    first operand has fewer rows than columns (for example both [1 x 2]):
    [gsvd] raises instead of returning factors, in either mode, for every
    LAPACK whose economy QR returns an orthogonal factor of the
    documented shape.  The stacked orthogonal factor is split into a wide
    [Q1] and a one-row [Q2], and [_csd] then takes the row index [i = 1]
    of its [n > 1] test's other branch. *)
Theorem gsvd_single_row_operand_raises
  (svd : matrix -> option (matrix * list float * matrix))
  (qr qr_economic : matrix -> option (matrix * matrix))
  (A B : matrix) (full_matrices compute_all : bool) :
  (forall M Q R, qr_economic M = Some (Q, R) ->
                 nrows Q = nrows M
                 /\ ncols Q = Nat.min (nrows M) (ncols M)) ->
  ncols B = ncols A -> nrows B = 1%nat ->
  (1 <= nrows A < ncols A)%nat ->
  raises (gsvd svd qr qr_economic A B full_matrices compute_all).
Proof.
  intros Hqr Hc Hn Hm. unfold gsvd.
  rewrite Hc, Nat.eqb_refl. simpl negb. cbv iota.
  unfold economy.
  destruct (Nat.ltb_spec (ncols A) (nrows A)); [lia|].
  destruct (Nat.ltb_spec (ncols A) (nrows B)); [lia|].
  rewrite !andb_false_r. simpl.
  apply raises_bind. intros AB HAB.
  destruct (vstack_shape A B AB HAB) as [Hr Hcol].
  destruct (qr_economic AB) as [[Q R]|] eqn:E; [|now exists LinAlgError].
  destruct (Hqr AB Q R E) as [HQr HQc]. simpl.
  apply raises_bind_first. apply csd_raises; simpl; lia.
Qed.

(** The pair [A = [[1, 0]]], [B = [[0, 1]]], with factorizations that are
    exact on the matrices met on the way. *)
Lemma gsvd_single_row_operand_raises_witness :
  raises (gsvd svd_diagonal qr_triangular qr_economic_triangular
               (of_rows 1 2 [[1; 0]]) (of_rows 1 2 [[0; 1]]) true true).
Proof.
  apply (gsvd_single_row_operand_raises svd_diagonal qr_triangular
           qr_economic_triangular (of_rows 1 2 [[1; 0]])
           (of_rows 1 2 [[0; 1]]) true true).
  - intros M Q R [= <- <-]. simpl. split; reflexivity.
  - reflexivity.
  - reflexivity.
  - simpl. lia.
Defined.

(** The exception on that pair is the [IndexError] of [S[i, :]] with
    [i = 1], in both modes. *)
Lemma gsvd_row_pair_index_error :
  gsvd svd_diagonal qr_triangular qr_economic_triangular
       (of_rows 1 2 [[1; 0]]) (of_rows 1 2 [[0; 1]]) true true
  = Raise IndexError
  /\ gsvd svd_diagonal qr_triangular qr_economic_triangular
          (of_rows 1 2 [[1; 0]]) (of_rows 1 2 [[0; 1]]) true false
     = Raise IndexError.
Proof. split; vm_compute; reflexivity. Qed.

Lemma zeros2_negative (r c : Z) : (r < 0)%Z -> zeros2 r c = Raise ValueError.
Proof.
  intros H. unfold zeros2. destruct (Z.ltb_spec r 0); [reflexivity | lia].
Qed.

(** C5, on every pair with an operand that has more rows than columns:
    in values-only mode with full matrices [gsvd] raises instead of
    returning the vector, whatever LAPACK returns: [q - m] (or [q - n])
    is negative and [np.zeros] refuses a negative dimension. *)
Theorem gsvd_values_tall_operand_raises
  (svd : matrix -> option (matrix * list float * matrix))
  (qr qr_economic : matrix -> option (matrix * matrix)) (A B : matrix) :
  ncols B = ncols A ->
  (ncols A < nrows A)%nat \/ (ncols A < nrows B)%nat ->
  raises (gsvd svd qr qr_economic A B true false).
Proof.
  intros Hc Htall. unfold gsvd.
  rewrite Hc, Nat.eqb_refl. simpl negb. cbv iota.
  unfold economy. simpl.
  do 3 raises_step.
  destruct Htall as [Ha|Hb].
  - apply raises_bind_first. rewrite zeros2_negative by lia.
    now exists ValueError.
  - do 2 raises_step.
    apply raises_bind_first. rewrite zeros2_negative by lia.
    now exists ValueError.
Qed.

(** The pair [A = [[1], [0]]], [B = [[0]]]. *)
Lemma gsvd_values_tall_operand_raises_witness :
  raises (gsvd svd_diagonal qr_triangular qr_economic_triangular
               (of_rows 2 1 [[1]; [0]]) (of_rows 1 1 [[0]]) true false).
Proof.
  apply (gsvd_values_tall_operand_raises svd_diagonal qr_triangular
           qr_economic_triangular (of_rows 2 1 [[1]; [0]])
           (of_rows 1 1 [[0]])).
  - reflexivity.
  - left. simpl. lia.
Defined.

(** On that pair the decomposition itself is found (the full composition
    returns); only the values-only assembly raises, with [ValueError];
    the economy mode, which first reduces [A] to [p] rows, returns a
    column of [q = 1] value. *)
Lemma gsvd_tall_pair_value_error :
  is_ok (gsvd svd_diagonal qr_triangular qr_economic_triangular
              (of_rows 2 1 [[1]; [0]]) (of_rows 1 1 [[0]]) true true) = true
  /\ gsvd svd_diagonal qr_triangular qr_economic_triangular
          (of_rows 2 1 [[1]; [0]]) (of_rows 1 1 [[0]]) true false
     = Raise ValueError
  /\ values_shape (gsvd svd_diagonal qr_triangular qr_economic_triangular
                        (of_rows 2 1 [[1]; [0]]) (of_rows 1 1 [[0]])
                        false false)
     = Some (1%nat, 1%nat).
Proof. repeat split; vm_compute; reflexivity. Qed.

(** * Further properties of [linalg.py] and [lcurve.py] *)

(** * [roughmat] *)



















Section TikhGsvdUnder.

Variables log10 pow10 : float -> float.
Variable matrix_rank : matrix -> option nat.
Variable inv : matrix -> option matrix.


End TikhGsvdUnder.





(** * Signs of float64 results *)








Section NormsNotNegative.

Variables log10 pow10 : float -> float.
Variable matrix_rank : matrix -> option nat.
Variable inv : matrix -> option matrix.






End NormsNotNegative.



(** ** Where [tikh_svd] returns *)



Section TikhSvdDomain.

Variables log10 pow10 : float -> float.




End TikhSvdDomain.


(** * [_diagp] *)










Lemma in_where (cond : float -> bool) (v : list float) (q : nat) :
  In q (where_ cond v) <-> (q < length v)%nat /\ cond (nth q v 0) = true.
Proof.
  unfold where_. rewrite filter_In, in_seq. intuition lia.
Qed.




Lemma length_where (cond : float -> bool) (v : list float) :
  forall q, In q (where_ cond v) -> (q < length v)%nat.
Proof. intros q H. now apply in_where in H. Qed.










(** * Shapes *)















Section CsdShapes.

Variable svd : matrix -> option (matrix * list float * matrix).
Variable qr : matrix -> option (matrix * matrix).

(** LAPACK returns square orthogonal factors. *)
Hypothesis svd_shape : forall M U s Vh,
  svd M = Some (U, s, Vh) ->
  nrows U = nrows M /\ ncols U = nrows M
  /\ nrows Vh = ncols M /\ ncols Vh = ncols M.

Hypothesis qr_shape : forall M Q R,
  qr M = Some (Q, R) -> nrows Q = nrows M /\ ncols Q = nrows M.





End CsdShapes.

Section GsvdShapes.

Variable svd : matrix -> option (matrix * list float * matrix).
Variable qr : matrix -> option (matrix * matrix).
Variable qr_economic : matrix -> option (matrix * matrix).

Hypothesis svd_shape : forall M U s Vh,
  svd M = Some (U, s, Vh) ->
  nrows U = nrows M /\ ncols U = nrows M
  /\ nrows Vh = ncols M /\ ncols Vh = ncols M.

Hypothesis qr_shape : forall M Q R,
  qr M = Some (Q, R) -> nrows Q = nrows M /\ ncols Q = nrows M.

Hypothesis qr_economic_shape : forall M Q R,
  qr_economic M = Some (Q, R) ->
  nrows Q = nrows M /\ ncols Q = Nat.min (nrows M) (ncols M)
  /\ nrows R = Nat.min (nrows M) (ncols M) /\ ncols R = ncols M.










End GsvdShapes.







(** * [corner_mdf_svd], [corner_mdf_gsvd]: division by a zero norm *)



(** * The MDF loop: where it stops *)

Section MdfTrace.

Variable f : float -> result float.
Variable tol : float.
Variable maxiter : Z.
Variable alpha_init : float.




End MdfTrace.


